(** * ai-pdf-renamer: the App component's handlers

    A shallow embedding of the state handlers of [App] (the upload handler
    [handleFilesSelected], the batch processor [processFiles] and the archive
    builder [handleDownloadZip]) together with the types of [types.ts].

    - React state is a record [AppState]; a state setter is a function on it.
    - The [ProcessedFile] records are JavaScript objects which the handlers
      mutate in place while several arrays refer to them, so they live in a
      store ([objects]) and the [results] array holds references.
    - The services of [./services] and the JSZip library are collaborators,
      not part of this component: they are quantified over as a [World]. *)

From Stdlib Require Import Ascii.
From stdpp Require Import base strings list gmap pretty.

(** ** types.ts *)

Inductive RenameMethod := BankAccount | Custom | AI.

Inductive FileProcessStatus := Idle | Processing | Success | Error | NoMatch.

Global Instance FileProcessStatus_eq_dec : EqDecision FileProcessStatus.
Proof. solve_decision. Defined.

(** The browser's [File]: the fields the component reads, and the payload. *)
Record File := mkFile {
  file_name : string;
  file_lastModified : Z;
  file_data : list Byte.byte;
}.

Record ProcessedFile := mkProcessedFile {
  id : string;
  originalFile : File;
  originalName : string;
  newName : string;
  status : FileProcessStatus;
  message : option string;
}.

Inductive LogType := info | error | success.

Global Instance LogType_eq_dec : EqDecision LogType.
Proof. solve_decision. Defined.

(** A [LogEntry]. Its [id] field is [Date.now() + Math.random()], a React
    key that no handler reads; it is not represented. *)
Record LogEntry := mkLog {
  log_message : string;
  log_type : LogType;
}.

(** ** Collaborators *)

(** What a [catch] clause receives: an [Error] instance with its message, or
    any other thrown value ([error instanceof Error] is false). *)
Inductive Thrown := ErrorObject (msg : string) | OtherThrown.

Inductive Outcome (A : Type) := Returns (a : A) | Throws (e : Thrown).
Arguments Returns {A} a.
Arguments Throws {A} e.

(** The options object [{ customPattern, aiInstructions }]. *)
Record RenameOptions := mkOptions {
  opt_customPattern : string;
  opt_aiInstructions : string;
}.

(** A JSZip object under construction, as the sequence of
    [zip.file(name, data)] calls made on it, oldest first. *)
Abbreviation JSZip := (list (string * File)).

(** The environment of one run of a handler. The services may be remote and
    need not answer twice alike, so they also receive the loop index of the
    call. [extractTextFromPdf] resolves to the text (the empty string stands
    for every falsy result) or rejects; [getNewFilename] resolves to a name
    or to no name ([None]), or rejects. [generateAsync] stands for the
    collaborators of the archive step ([new JSZip()], [generateAsync] and
    the download link): it returns when none of them raises. *)
Record World := mkWorld {
  extractTextFromPdf : nat -> File -> Outcome string;
  getNewFilename : nat -> string -> RenameMethod -> RenameOptions -> Outcome (option string);
  generateAsync : JSZip -> Outcome unit;
  Date_now : Z;
}.

(** ** State *)

(** A download offered to the user: [link.download] and the archive. *)
Record Download := mkDownload {
  download_name : string;
  download_zip : JSZip;
}.

(** The component's state. [objects] is the store of record objects, a
    reference being an index into it; [results] is the array held by
    [useState]; [downloads] lists the downloads initiated so far. *)
Record AppState := mkApp {
  objects : list ProcessedFile;
  results : list nat;
  renameMethod : RenameMethod;
  customPattern : string;
  aiInstructions : string;
  isProcessing : bool;
  logs : list LogEntry;
  downloads : list Download;
}.

Definition initialState : AppState :=
  {| objects := [];
     results := [];
     renameMethod := AI;
     customPattern := "Invoice No:\s*([A-Z0-9-]+)";
     aiInstructions := "From the document text, find the primary identifier such as an invoice number, account number, or reference ID. The filename should be clean and not contain spaces or special characters, use hyphens instead.";
     isProcessing := false;
     logs := [];
     downloads := [] |}.

(** The records a list of references denotes in a store. *)
Definition deref (objs : list ProcessedFile) (refs : list nat) : list ProcessedFile :=
  omap (fun l => objs !! l) refs.

(** The batch as the results table shows it. *)
Definition records (st : AppState) : list ProcessedFile :=
  deref (objects st) (results st).

(** *** Setters *)

Definition setObjects (os : list ProcessedFile) (st : AppState) : AppState :=
  mkApp os (results st) (renameMethod st) (customPattern st) (aiInstructions st)
        (isProcessing st) (logs st) (downloads st).

Definition setResults (rs : list nat) (st : AppState) : AppState :=
  mkApp (objects st) rs (renameMethod st) (customPattern st) (aiInstructions st)
        (isProcessing st) (logs st) (downloads st).

Definition setRenameMethod (m : RenameMethod) (st : AppState) : AppState :=
  mkApp (objects st) (results st) m (customPattern st) (aiInstructions st)
        (isProcessing st) (logs st) (downloads st).

Definition setCustomPattern (p : string) (st : AppState) : AppState :=
  mkApp (objects st) (results st) (renameMethod st) p (aiInstructions st)
        (isProcessing st) (logs st) (downloads st).

Definition setAiInstructions (a : string) (st : AppState) : AppState :=
  mkApp (objects st) (results st) (renameMethod st) (customPattern st) a
        (isProcessing st) (logs st) (downloads st).

Definition setIsProcessing (b : bool) (st : AppState) : AppState :=
  mkApp (objects st) (results st) (renameMethod st) (customPattern st) (aiInstructions st)
        b (logs st) (downloads st).

Definition setLogs (ls : list LogEntry) (st : AppState) : AppState :=
  mkApp (objects st) (results st) (renameMethod st) (customPattern st) (aiInstructions st)
        (isProcessing st) ls (downloads st).

Definition startDownload (d : Download) (st : AppState) : AppState :=
  mkApp (objects st) (results st) (renameMethod st) (customPattern st) (aiInstructions st)
        (isProcessing st) (logs st) (downloads st ++ [d]).

(** [setLogs(prev => [...prev, { id, message, type }])] *)
Definition addLog (message : string) (type : LogType) (st : AppState) : AppState :=
  setLogs (logs st ++ [mkLog message type]) st.

(** Assignment to a field of the object behind reference [l]. *)
Definition assign (l : nat) (f : ProcessedFile -> ProcessedFile) (st : AppState) : AppState :=
  setObjects (alter f l (objects st)) st.

Definition with_status (s : FileProcessStatus) (r : ProcessedFile) : ProcessedFile :=
  mkProcessedFile (id r) (originalFile r) (originalName r) (newName r) s (message r).

Definition with_newName (n : string) (r : ProcessedFile) : ProcessedFile :=
  mkProcessedFile (id r) (originalFile r) (originalName r) n (status r) (message r).

Definition with_message (m : string) (r : ProcessedFile) : ProcessedFile :=
  mkProcessedFile (id r) (originalFile r) (originalName r) (newName r) (status r) (Some m).

(** Creation of fresh objects: they are appended to the store and their
    references returned. *)
Definition allocate (rs : list ProcessedFile) (st : AppState) : list nat * AppState :=
  (seq (length (objects st)) (length rs), setObjects (objects st ++ rs) st).

(** ** handleFilesSelected *)

(** The object literal of the [files.map] callback. A number in a template
    literal prints as JavaScript prints a Number; for an integer up to
    [Number.MAX_SAFE_INTEGER] in size that is its decimal numeral, which is
    what [pretty] gives. Beyond that size the two printings part, so the
    statements about identities are made of modification times within it
    ([safe_time]). *)
Definition newRecord (file : File) : ProcessedFile :=
  {| id := file_name file +:+ "-" +:+ pretty (file_lastModified file);
     originalFile := file;
     originalName := file_name file;
     newName := "";
     status := Idle;
     message := None |}.

Definition handleFilesSelected (files : list File) (st : AppState) : AppState :=
  if decide (length files = 0) then st
  else
    let '(newResults, st) := allocate (map newRecord files) st in
    let st := setResults newResults st in
    let st := setLogs [] st in
    addLog ("Loaded " +:+ pretty (length files) +:+ " PDF file(s). Ready for processing.") info st.

Definition clearAll (st : AppState) : AppState :=
  setLogs [] (setResults [] st).

(** ** processFiles *)

Definition errorMessage (e : Thrown) (unknown : string) : string :=
  match e with
  | ErrorObject msg => msg
  | OtherThrown => unknown
  end.

(** The two awaited calls of the [try] block, up to the test of [newName]:
    a rejection of either service, or the [throw] on a falsy text, leaves
    the block for the [catch] clause. *)
Definition deriveName (w : World) (i : nat) (file : File)
    (method : RenameMethod) (options : RenameOptions) : Outcome (option string) :=
  match extractTextFromPdf w i file with
  | Throws e => Throws e
  | Returns text =>
      if decide (text = "") then Throws (ErrorObject "Could not extract text from PDF.")
      else getNewFilename w i text method options
  end.

(** One iteration of the [for] loop: [l] is [updatedResults[i]], the
    reference to the object called [result]. (An element of the array
    always has its object; the first branch is there for totality and is
    not met in a well-formed state.) *)
Definition processRecord (w : World) (method : RenameMethod) (options : RenameOptions)
    (updatedResults : list nat) (i l : nat) (st : AppState) : AppState :=
  match objects st !! l with
  | None => st
  | Some result =>
      let st := assign l (with_status Processing) st in
      let st := assign l (with_newName "") st in
      let st := setResults updatedResults st in
      let st := addLog ("Processing: " +:+ originalName result) info st in
      let st :=
        match deriveName w i (originalFile result) method options with
        | Returns (Some (String c n)) =>
            let newName := String c n in
            let st := assign l (with_newName (newName +:+ ".pdf")) st in
            let st := assign l (with_status Success) st in
            addLog ("Found name for " +:+ originalName result +:+ " -> " +:+ (newName +:+ ".pdf"))
                   success st
        | Returns _ =>
            let st := assign l (with_status NoMatch) st in
            addLog ("No match found for: " +:+ originalName result) error st
        | Throws e =>
            let st := assign l (with_status Error) st in
            let errorMessage := errorMessage e "An unknown error occurred." in
            let st := assign l (with_message errorMessage) st in
            addLog ("Error processing " +:+ originalName result +:+ ": " +:+ errorMessage) error st
        end in
      setResults updatedResults st
  end.

(** The [for] loop from index [i] on; [rest] is [updatedResults] from that
    index. *)
Fixpoint processFrom (w : World) (method : RenameMethod) (options : RenameOptions)
    (updatedResults : list nat) (i : nat) (rest : list nat) (st : AppState) : AppState :=
  match rest with
  | [] => st
  | l :: rest' =>
      processFrom w method options updatedResults (S i) rest'
                  (processRecord w method options updatedResults i l st)
  end.

(** ** handleDownloadZip *)

(** [s.replace(/\.pdf$/, '')]: the pattern is anchored at the end of the
    string, so a final ".pdf" is removed and any other string is kept. *)
Fixpoint replace_pdf_end (s : string) : string :=
  match s with
  | EmptyString => EmptyString
  | String c s' =>
      if decide (String c s' = ".pdf") then EmptyString
      else String c (replace_pdf_end s')
  end.

(** The body of the [for ... of] loop before [zip.file]: the name the
    payload is filed under and the updated [nameCounts]. A count is truthy
    when it is present and not zero. [nameCounts] is a plain object, which
    also answers for the property names it inherits ("constructor",
    "toString", ...); none of them ends in ".pdf", as every name the
    processor produces does. The map below knows the keys that were set
    and no other, so it stands for [nameCounts] on names ending in ".pdf",
    and the statements about names in the archive are made of such
    names. *)
Definition resolveName (nameCounts : gmap string nat) (result : ProcessedFile)
    : string * gmap string nat :=
  let finalName := newName result in
  match nameCounts !! finalName with
  | Some (S _ as count) =>
      let nameWithoutExt := replace_pdf_end finalName in
      let finalName := nameWithoutExt +:+ "_" +:+ pretty count +:+ ".pdf" in
      (finalName, <[newName result := count + 1]> nameCounts)
  | _ =>
      (finalName, <[newName result := 1]> nameCounts)
  end.

(** [zip.file(name, data)] *)
Definition JSZip_file (zip : JSZip) (name : string) (data : File) : JSZip :=
  zip ++ [(name, data)].

Fixpoint zipLoop (nameCounts : gmap string nat) (zip : JSZip)
    (files : list ProcessedFile) : JSZip :=
  match files with
  | [] => zip
  | result :: rest =>
      let '(finalName, nameCounts) := resolveName nameCounts result in
      zipLoop nameCounts (JSZip_file zip finalName (originalFile result)) rest
  end.

(** The archive of a list of records: [new JSZip()], [nameCounts = {}] and
    the loop. *)
Definition buildZip (files : list ProcessedFile) : JSZip :=
  zipLoop ∅ [] files.

(** [results.filter(r => r.status === FileProcessStatus.Success)], read
    through the references of the array. *)
Definition filesToZip (st : AppState) (captured : list nat) : list ProcessedFile :=
  filter (fun r => status r = Success) (deref (objects st) captured).

(** [captured] is the [results] array of the closure: the handler is
    created at a render and reads that render's array, whose elements are
    the shared record objects. *)
Definition handleDownloadZip (w : World) (captured : list nat) (st : AppState) : AppState :=
  let filesToZip := filesToZip st captured in
  if decide (length filesToZip = 0) then
    addLog "No files were successfully renamed to include in a ZIP." error st
  else
    let st := addLog ("Creating ZIP archive with " +:+ pretty (length filesToZip) +:+ " files...")
                     info st in
    let st := setIsProcessing true st in
    let zip := buildZip filesToZip in
    let st :=
      match generateAsync w zip with
      | Returns _ =>
          let st := startDownload
                      (mkDownload ("renamed_pdfs_" +:+ pretty (Date_now w) +:+ ".zip") zip) st in
          addLog "ZIP file download initiated." success st
      | Throws e =>
          let errorMessage := errorMessage e "An unknown ZIP error occurred." in
          addLog ("Failed to create ZIP file: " +:+ errorMessage) error st
      end in
    setIsProcessing false st.

(** [processFiles]: the closure reads the [results], [renameMethod],
    [customPattern] and [aiInstructions] of the render it was created at,
    and calls the [handleDownloadZip] of that same render. *)
Definition processFiles (w : World) (previewOnly : bool) (st : AppState) : AppState :=
  let captured := results st in
  let method := renameMethod st in
  let options := mkOptions (customPattern st) (aiInstructions st) in
  if decide (length captured = 0) then
    addLog "No files to process. Please upload PDFs first." error st
  else
    let st := setIsProcessing true st in
    let st :=
      if previewOnly then addLog "Starting rename PREVIEW..." info st
      else addLog "Starting file processing for download..." info st in
    let updatedResults := captured in
    let st := processFrom w method options updatedResults 0 updatedResults st in
    let st := addLog "Processing complete." info st in
    let st := setIsProcessing false st in
    if previewOnly then st else handleDownloadZip w captured st.

(** ** Sessions *)

(** What the user can do: the callbacks [App] hands to its children. *)
Inductive Action :=
| FilesSelected (files : list File)
| ClearAll
| SetRenameMethod (m : RenameMethod)
| SetCustomPattern (p : string)
| SetAiInstructions (a : string)
| Preview (w : World)
| DownloadAll (w : World).

Definition step (st : AppState) (a : Action) : AppState :=
  match a with
  | FilesSelected files => handleFilesSelected files st
  | ClearAll => clearAll st
  | SetRenameMethod m => setRenameMethod m st
  | SetCustomPattern p => setCustomPattern p st
  | SetAiInstructions a => setAiInstructions a st
  | Preview w => processFiles w true st
  | DownloadAll w => processFiles w false st
  end.

Definition run (actions : list Action) : AppState := foldl step initialState actions.

Inductive reachable : AppState -> Prop :=
| reachable_initial : reachable initialState
| reachable_step st a : reachable st -> reachable (step st a).

(** ** Derived notions used in the statements *)

(** The object behind [updatedResults[i]] at the end of iteration [i], as a
    function of the object at its start: the assignments of [processRecord],
    composed. *)
Definition processed (w : World) (method : RenameMethod) (options : RenameOptions)
    (i : nat) (r : ProcessedFile) : ProcessedFile :=
  let reset := with_newName "" (with_status Processing r) in
  match deriveName w i (originalFile r) method options with
  | Returns (Some (String c n)) =>
      with_status Success (with_newName (String c n +:+ ".pdf") reset)
  | Returns _ => with_status NoMatch reset
  | Throws e =>
      with_message (errorMessage e "An unknown error occurred.") (with_status Error reset)
  end.

(** Terminal statuses. *)
Definition terminal (s : FileProcessStatus) : Prop :=
  s = Success ∨ s = Error ∨ s = NoMatch.

(** ** Sample sessions *)

Definition scan_a : File :=
  mkFile "scan-a.pdf" 1700000000000 [Byte.x25; Byte.x50; Byte.x44; Byte.x46; Byte.x0a].

Definition scan_b : File :=
  mkFile "scan-b.pdf" 1700000000500 [Byte.x25; Byte.x50; Byte.x44; Byte.x46; Byte.x0d].

(** Services that read an invoice number off every document. *)
Definition world_ok : World :=
  {| extractTextFromPdf := fun _ _ => Returns "Invoice No: A-17";
     getNewFilename := fun _ _ _ _ => Returns (Some "A-17");
     generateAsync := fun _ => Returns ();
     Date_now := 1700000001000 |}.

(** Services that cannot read [scan_b], with an archive step that fails. *)
Definition world_flaky : World :=
  {| extractTextFromPdf := fun _ file =>
       if decide (file_name file = "scan-b.pdf") then Throws (ErrorObject "Invalid PDF structure.")
       else Returns "Invoice No: A-17";
     getNewFilename := fun _ _ _ _ => Returns (Some "A-17");
     generateAsync := fun _ => Throws (ErrorObject "JSZip is not defined");
     Date_now := 1700000002000 |}.

(** A second document with the name and modification time of [scan_a]
    (a copy kept in another folder) and another payload. *)
Definition scan_a_copy : File :=
  mkFile "scan-a.pdf" 1700000000000 [Byte.x25; Byte.x50; Byte.x44; Byte.x46; Byte.x2d].

Definition scan_c : File :=
  mkFile "scan-c.pdf" 1700000000900 [Byte.x25; Byte.x50; Byte.x44; Byte.x46; Byte.x20].

(** Services under which [scan_a] and [scan_b] both read as invoice
    "INV-7" and [scan_c] as invoice "INV-7_1". *)
Definition world_invoices : World :=
  {| extractTextFromPdf := fun _ file =>
       if decide (file_name file = "scan-c.pdf") then Returns "Invoice No: INV-7_1"
       else Returns "Invoice No: INV-7";
     getNewFilename := fun _ text _ _ =>
       if decide (text = "Invoice No: INV-7_1") then Returns (Some "INV-7_1")
       else Returns (Some "INV-7");
     generateAsync := fun _ => Returns ();
     Date_now := 1700000003000 |}.

(** A Custom strategy that rejects on a pattern with an unclosed group and
    finds the invoice number otherwise. *)
Definition world_custom : World :=
  {| extractTextFromPdf := fun _ _ => Returns "Invoice No: A-17";
     getNewFilename := fun _ _ _ options =>
       if decide (opt_customPattern options = "Invoice No:\s*([A-Z0-9-]+")
       then Throws (ErrorObject "Invalid regular expression: Unterminated group")
       else Returns (Some "A-17");
     generateAsync := fun _ => Returns ();
     Date_now := 1700000004000 |}.

(** A Custom-mode session: the pattern typed first has an unclosed group,
    the preview fails, the pattern is repaired and the preview run again. *)
Definition session_rerun : list Action :=
  [FilesSelected [scan_a];
   SetRenameMethod Custom;
   SetCustomPattern "Invoice No:\s*([A-Z0-9-]+";
   Preview world_custom;
   SetCustomPattern "Invoice No:\s*([A-Z0-9-]+)";
   Preview world_custom].

(** The same upload previewed once, with the repaired pattern. *)
Definition session_fresh : list Action :=
  [FilesSelected [scan_a];
   SetRenameMethod Custom;
   SetCustomPattern "Invoice No:\s*([A-Z0-9-]+)";
   Preview world_custom].

(** A strategy that finds nothing in any text. *)
Definition world_no_match : World :=
  {| extractTextFromPdf := fun _ _ => Returns "Statement of account";
     getNewFilename := fun _ _ _ _ => Returns None;
     generateAsync := fun _ => Returns ();
     Date_now := 1700000005000 |}.

(** ** Views of the state *)

(** What [SettingsPanel] edits. *)
Definition settings (st : AppState) : RenameMethod * string * string :=
  (renameMethod st, customPattern st, aiInstructions st).

(** The name a duplicate of [name] is filed under when [k] records with
    that name came before it. *)
Definition suffixed (name : string) (k : nat) : string :=
  replace_pdf_end name +:+ "_" +:+ pretty k +:+ ".pdf".

(** The log entries of severity [type]. *)
Definition entriesOf (type : LogType) (entries : list LogEntry) : list LogEntry :=
  filter (fun entry => log_type entry = type) entries.

(** ** Decimal numerals *)

(** Whether a string contains the character [c]. *)
Fixpoint contains (c : ascii) (s : string) : bool :=
  match s with
  | EmptyString => false
  | String c' s' => if decide (c' = c) then true else contains c s'
  end.

(** The identity of an upload as a function of the pair it is derived
    from. *)
Definition identity (key : string * Z) : string :=
  key.1 +:+ "-" +:+ pretty key.2.

Definition fileKey (file : File) : string * Z :=
  (file_name file, file_lastModified file).

(** [Number.MAX_SAFE_INTEGER], 2^53 - 1: up to it every integer is a Number
    and prints as its decimal numeral. *)
Definition MAX_SAFE_INTEGER : Z := 9007199254740991.

(** A modification time as a browser reports it: milliseconds since the
    epoch, a non-negative safe integer. *)
Definition safe_time (file : File) : Prop :=
  (0 ≤ file_lastModified file ≤ MAX_SAFE_INTEGER)%Z.

(** A state is well formed when its batch holds every object once and no
    reference dangles. *)
Definition well_formed (st : AppState) : Prop :=
  NoDup (results st) ∧ ∀ l, l ∈ results st → l < length (objects st).

(** ** The collision rule, in the specification's words *)

(** How many of the records [before] have the computed name [n]. *)
Definition occurrences (n : string) (before : list ProcessedFile) : nat :=
  length (filter (fun r => newName r = n) before).

(** The first record with a given computed name keeps the bare name; the
    k-th later record with that name gets "_k" before the extension. *)
Definition ruleName (before : list ProcessedFile) (r : ProcessedFile) : string :=
  match occurrences (newName r) before with
  | 0 => newName r
  | S _ as k => replace_pdf_end (newName r) +:+ "_" +:+ pretty k +:+ ".pdf"
  end.

(** The archive entries of [files] under that rule, [before] being the
    records already filed. *)
Fixpoint ruleEntries (before files : list ProcessedFile) : list (string * File) :=
  match files with
  | [] => []
  | r :: rest => (ruleName before r, originalFile r) :: ruleEntries (before ++ [r]) rest
  end.

(** [nameCounts] after the records [before]: a key is present once its
    name has occurred, with the number of occurrences. *)
Definition counts (nameCounts : gmap string nat) (before : list ProcessedFile) : Prop :=
  ∀ n, nameCounts !! n = match occurrences n before with
                         | 0 => None
                         | S _ as k => Some k
                         end.

(** The computed name of each record of [files] with the number of
    earlier records of that name, [before] being the records already
    filed. *)
Fixpoint nameKeys (before files : list ProcessedFile) : list (string * nat) :=
  match files with
  | [] => []
  | r :: rest =>
      (newName r, occurrences (newName r) before) :: nameKeys (before ++ [r]) rest
  end.

(** The name the rule files a record under, from its name and the number
    of earlier records of that name. *)
Definition keyName (key : string * nat) : string :=
  match key.2 with
  | 0 => key.1
  | S _ as k => suffixed key.1 k
  end.

(** Three records of a processed batch: two invoices read as "A-17" and a
    statement read as "B-2". *)
Definition sample_named : list ProcessedFile :=
  [ {| id := "scan-a.pdf-1700000000000"; originalFile := scan_a;
       originalName := "scan-a.pdf"; newName := "A-17.pdf"; status := Success;
       message := None |};
    {| id := "scan-b.pdf-1700000000500"; originalFile := scan_b;
       originalName := "scan-b.pdf"; newName := "A-17.pdf"; status := Success;
       message := None |};
    {| id := "scan-c.pdf-1700000000900"; originalFile := scan_c;
       originalName := "scan-c.pdf"; newName := "B-2.pdf"; status := Success;
       message := None |} ].

(* ================================================================== *)
(** * Properties *)
(* ================================================================== *)

(** ** Strings *)

Lemma append_empty_l (s : string) : "" +:+ s = s.
Proof. reflexivity. Qed.

Lemma append_String_l (c : ascii) (s t : string) : String c s +:+ t = String c (s +:+ t).
Proof. reflexivity. Qed.

Lemma length_append (s t : string) :
  String.length (s +:+ t) = String.length s + String.length t.
Proof. induction s as [|c s IH]; [done|]. simpl. by rewrite IH. Qed.

(** ** The store *)

Lemma elem_of_deref (objs : list ProcessedFile) (refs : list nat) (r : ProcessedFile) :
  r ∈ deref objs refs ↔ ∃ l, l ∈ refs ∧ objs !! l = Some r.
Proof. unfold deref. apply list_elem_of_omap. Qed.

Lemma deref_allocated (objs new : list ProcessedFile) :
  deref (objs ++ new) (seq (length objs) (length new)) = new.
Proof.
  revert objs. induction new as [|x new IH]; intros objs; [done|].
  unfold deref in *. cbn [length seq omap list_omap].
  rewrite lookup_app_r, Nat.sub_diag by lia. cbn.
  f_equal.
  specialize (IH (objs ++ [x])).
  rewrite <- app_assoc, length_app in IH. cbn in IH.
  by rewrite Nat.add_1_r in IH.
Qed.


(** ** One iteration of the loop *)

Section Iteration.
Context (w : World) (method : RenameMethod) (options : RenameOptions).
Context (updatedResults : list nat).

Lemma processRecord_objects (i l : nat) (st : AppState) :
  objects (processRecord w method options updatedResults i l st)
  = alter (processed w method options i) l (objects st).
Proof.
  unfold processRecord.
  destruct (objects st !! l) as [result|] eqn:Hl.
  - assert (Hext : ∀ g : ProcessedFile → ProcessedFile,
               g result = processed w method options i result →
               alter g l (objects st) = alter (processed w method options i) l (objects st)).
    { intros g Hg. apply list_alter_ext; [|done]. intros x Hx.
      rewrite Hl in Hx. by simplify_eq. }
    destruct (deriveName w i (originalFile result) method options)
      as [[[|c n]|]|e] eqn:Hd; cbn;
      rewrite !list_alter_alter_eq;
      (apply Hext; unfold processed; cbn; by rewrite Hd).
  - symmetry. rewrite <- (list_alter_id (λ x, x) (objects st) l) at 2 by done.
    apply list_alter_ext; [|done]. intros x Hx. by rewrite Hl in Hx.
Qed.

Lemma processRecord_results (i l : nat) (st : AppState) :
  results st = updatedResults →
  results (processRecord w method options updatedResults i l st) = updatedResults.
Proof.
  intros Hres. unfold processRecord.
  destruct (objects st !! l); [|done].
  by destruct (deriveName w i _ method options) as [[[|c n]|]|e].
Qed.

(** An iteration touches the store, the published array and the log, and
    nothing else. *)
Lemma processRecord_frame (i l : nat) (st : AppState) :
  let st' := processRecord w method options updatedResults i l st in
  renameMethod st' = renameMethod st ∧ customPattern st' = customPattern st ∧
  aiInstructions st' = aiInstructions st ∧ isProcessing st' = isProcessing st ∧
  downloads st' = downloads st.
Proof.
  unfold processRecord.
  destruct (objects st !! l); [|done].
  by destruct (deriveName w i _ method options) as [[[|c n]|]|e].
Qed.

(** ** The whole loop *)

Lemma processFrom_results (rest : list nat) (i : nat) (st : AppState) :
  results st = updatedResults →
  results (processFrom w method options updatedResults i rest st) = updatedResults.
Proof.
  revert i st. induction rest as [|l rest IH]; intros i st Hres; [done|].
  cbn. apply IH. by apply processRecord_results.
Qed.

Lemma processFrom_frame (rest : list nat) (i : nat) (st : AppState) :
  let st' := processFrom w method options updatedResults i rest st in
  renameMethod st' = renameMethod st ∧ customPattern st' = customPattern st ∧
  aiInstructions st' = aiInstructions st ∧ isProcessing st' = isProcessing st ∧
  downloads st' = downloads st.
Proof.
  revert i st. induction rest as [|l rest IH]; intros i st; [done|].
  cbn. destruct (IH (S i) (processRecord w method options updatedResults i l st))
    as (-> & -> & -> & -> & ->).
  apply processRecord_frame.
Qed.

(** Objects the loop does not visit are left alone. *)
Lemma processFrom_lookup_other (rest : list nat) (i : nat) (st : AppState) (l : nat) :
  l ∉ rest →
  objects (processFrom w method options updatedResults i rest st) !! l = objects st !! l.
Proof.
  revert i st. induction rest as [|k rest IH]; intros i st Hl; [done|].
  apply not_elem_of_cons in Hl as [Hne Hl].
  cbn. rewrite IH by done.
  rewrite processRecord_objects. by apply list_lookup_alter_ne.
Qed.

(** Every visited object ends as the result of its last visit. *)
Lemma processFrom_lookup (rest : list nat) (i : nat) (st : AppState)
    (l : nat) (r : ProcessedFile) :
  l ∈ rest →
  objects (processFrom w method options updatedResults i rest st) !! l = Some r →
  ∃ j r0, r = processed w method options j r0.
Proof.
  revert i st. induction rest as [|k rest IH]; intros i st Hl Hr.
  - by apply elem_of_nil in Hl.
  - cbn in Hr. destruct (decide (l ∈ rest)) as [Hin|Hnin].
    + by eapply IH.
    + apply elem_of_cons in Hl as [->|Hin]; [|done].
      rewrite processFrom_lookup_other, processRecord_objects,
        list_lookup_alter_eq in Hr by done.
      destruct (objects st !! k) as [r0|]; [|done].
      injection Hr as <-. by exists i, r0.
Qed.

End Iteration.

(** ** What an iteration leaves in the object *)

Section Processed.
Context (w : World) (method : RenameMethod) (options : RenameOptions).

Lemma processed_fixed_fields (i : nat) (r : ProcessedFile) :
  let r' := processed w method options i r in
  id r' = id r ∧ originalFile r' = originalFile r ∧ originalName r' = originalName r.
Proof.
  unfold processed.
  by destruct (deriveName w i (originalFile r) method options) as [[[|c n]|]|e].
Qed.

Lemma processed_terminal (i : nat) (r : ProcessedFile) :
  terminal (status (processed w method options i r)).
Proof.
  unfold processed, terminal.
  destruct (deriveName w i (originalFile r) method options) as [[[|c n]|]|e];
    cbn; auto.
Qed.

Lemma processed_newName_iff (i : nat) (r : ProcessedFile) :
  newName (processed w method options i r) ≠ ""
  ↔ status (processed w method options i r) = Success.
Proof.
  unfold processed.
  destruct (deriveName w i (originalFile r) method options) as [[[|c n]|]|e];
    cbn; split; intros H; done.
Qed.

Lemma deriveName_Returns (i : nat) (file : File) (o : option string) :
  deriveName w i file method options = Returns o →
  ∃ text, extractTextFromPdf w i file = Returns text ∧ text ≠ "" ∧
          getNewFilename w i text method options = Returns o.
Proof.
  unfold deriveName. destruct (extractTextFromPdf w i file) as [text|e]; [|done].
  case_decide; [done|]. intros Hn. by exists text.
Qed.

Lemma processed_Success (i : nat) (r : ProcessedFile) :
  status (processed w method options i r) = Success →
  ∃ text n, extractTextFromPdf w i (originalFile r) = Returns text ∧
            getNewFilename w i text method options = Returns (Some n) ∧
            n ≠ "" ∧
            newName (processed w method options i r) = n +:+ ".pdf".
Proof.
  unfold processed.
  destruct (deriveName w i (originalFile r) method options) as [[[|c n]|]|e] eqn:Hd;
    cbn; intros H; try done.
  apply deriveName_Returns in Hd as (text & Hx & _ & Hn).
  by exists text, (String c n).
Qed.
End Processed.

(** ** The handlers, field by field *)

Lemma handleFilesSelected_records (files : list File) (st : AppState) :
  files ≠ [] → records (handleFilesSelected files st) = map newRecord files.
Proof.
  intros Hne. unfold handleFilesSelected.
  case_decide as Hlen; [by destruct files|].
  unfold records. cbn. apply deref_allocated.
Qed.

Lemma handleDownloadZip_store (w : World) (captured : list nat) (st : AppState) :
  objects (handleDownloadZip w captured st) = objects st ∧
  results (handleDownloadZip w captured st) = results st.
Proof.
  unfold handleDownloadZip. case_decide; [done|].
  by destruct (generateAsync w _).
Qed.

Lemma handleDownloadZip_downloads (w : World) (captured : list nat) (st : AppState) :
  filesToZip st captured ≠ [] →
  downloads (handleDownloadZip w captured st) =
    downloads st ++
    match generateAsync w (buildZip (filesToZip st captured)) with
    | Returns _ =>
        [mkDownload ("renamed_pdfs_" +:+ pretty (Date_now w) +:+ ".zip")
                    (buildZip (filesToZip st captured))]
    | Throws _ => []
    end.
Proof.
  intros Hne. unfold handleDownloadZip.
  case_decide as Hlen; [by destruct (filesToZip st captured)|].
  cbn zeta.
  destruct (generateAsync w (buildZip (filesToZip st captured))); cbn.
  - done.
  - by rewrite app_nil_r.
Qed.

Lemma processFiles_results (w : World) (previewOnly : bool) (st : AppState) :
  results (processFiles w previewOnly st) = results st.
Proof.
  unfold processFiles. case_decide; [done|].
  assert (∀ st0, results st0 = results st →
    results (processFrom w (renameMethod st) (mkOptions (customPattern st) (aiInstructions st))
                         (results st) 0 (results st) st0) = results st) as Hloop.
  { intros st0 H0. by apply processFrom_results. }
  destruct previewOnly.
  - cbn. by apply Hloop.
  - destruct (handleDownloadZip_store w (results st)
      (setIsProcessing false (addLog "Processing complete." info
        (processFrom w (renameMethod st) (mkOptions (customPattern st) (aiInstructions st))
           (results st) 0 (results st)
           (addLog "Starting file processing for download..." info
              (setIsProcessing true st)))))) as [_ ->].
    cbn. by apply Hloop.
Qed.

Lemma processFiles_objects (w : World) (previewOnly : bool) (st : AppState) :
  results st ≠ [] →
  objects (processFiles w previewOnly st)
  = objects (processFrom w (renameMethod st) (mkOptions (customPattern st) (aiInstructions st))
               (results st) 0 (results st) st).
Proof.
  intros Hne. unfold processFiles. case_decide as Hlen; [by destruct (results st)|].
  assert (∀ rest i st1 st2, objects st1 = objects st2 →
    objects (processFrom w (renameMethod st) (mkOptions (customPattern st) (aiInstructions st))
               (results st) i rest st1)
    = objects (processFrom w (renameMethod st) (mkOptions (customPattern st) (aiInstructions st))
               (results st) i rest st2)) as Hcong.
  { induction rest as [|l rest IH]; intros i st1 st2 H12; [done|].
    cbn. apply IH. rewrite !processRecord_objects. by rewrite H12. }
  destruct previewOnly.
  - cbn. by apply Hcong.
  - rewrite (proj1 (handleDownloadZip_store _ _ _)). cbn. by apply Hcong.
Qed.

(** Every record of the batch is, after a run, the result of an iteration. *)
Lemma processFiles_record (w : World) (previewOnly : bool) (st : AppState)
    (r : ProcessedFile) :
  results st ≠ [] →
  r ∈ records (processFiles w previewOnly st) →
  ∃ j r0, r = processed w (renameMethod st)
                (mkOptions (customPattern st) (aiInstructions st)) j r0.
Proof.
  intros Hne Hr. unfold records in Hr.
  rewrite processFiles_results, processFiles_objects in Hr by done.
  apply elem_of_deref in Hr as (l & Hl & Hr).
  by eapply processFrom_lookup.
Qed.

Lemma reachable_foldl (actions : list Action) (st : AppState) :
  reachable st → reachable (foldl step st actions).
Proof.
  revert st. induction actions as [|a actions IH]; intros st Hst; [done|].
  cbn. apply IH. by constructor.
Qed.

Lemma reachable_run (actions : list Action) : reachable (run actions).
Proof. apply reachable_foldl. constructor. Qed.

(** The download step of [processFiles(false)] reads the array captured
    before the loop against the store as the loop left it: it sees the
    statuses the loop assigned because the array and the loop share the
    record objects. *)
Lemma processFiles_download (w : World) (st : AppState) :
  results st ≠ [] →
  filesToZip (processFiles w true st) (results st) ≠ [] →
  downloads (processFiles w false st) =
    downloads st ++
    match generateAsync w (buildZip (filesToZip (processFiles w true st) (results st))) with
    | Returns _ =>
        [mkDownload ("renamed_pdfs_" +:+ pretty (Date_now w) +:+ ".zip")
                    (buildZip (filesToZip (processFiles w true st) (results st)))]
    | Throws _ => []
    end.
Proof.
  intros Hne Hsome.
  pose proof (processFiles_objects w true st Hne) as Htrue.
  pose proof (processFiles_objects w false st Hne) as Hfalse.
  set (previewed := processFiles w true st) in *.
  unfold processFiles in Hfalse |- *.
  case_decide as Hlen; [by destruct (results st)|].
  remember (setIsProcessing false (addLog "Processing complete." info
    (processFrom w (renameMethod st) (mkOptions (customPattern st) (aiInstructions st))
       (results st) 0 (results st)
       (addLog "Starting file processing for download..." info (setIsProcessing true st)))))
    as stL eqn:HstL.
  rewrite (proj1 (handleDownloadZip_store _ _ _)) in Hfalse.
  assert (filesToZip stL (results st) = filesToZip previewed (results st)) as Hsame.
  { unfold filesToZip. by rewrite Hfalse, Htrue. }
  assert (downloads stL = downloads st) as Hdl.
  { subst stL. cbn.
    by rewrite (proj2 (proj2 (proj2 (proj2 (processFrom_frame _ _ _ _ _ _ _))))). }
  rewrite <- Hsame in Hsome |- *. rewrite <- Hdl.
  by apply handleDownloadZip_downloads.
Qed.

(** ** Runs on well-formed states *)

Lemma deref_lookup (objs : list ProcessedFile) (refs : list nat) (k : nat) :
  (∀ l, l ∈ refs → l < length objs) →
  deref objs refs !! k = refs !! k ≫= (objs !!.).
Proof.
  revert k. induction refs as [|l refs IH]; intros k Hvalid; [done|].
  unfold deref in *. cbn [omap list_omap].
  destruct (lookup_lt_is_Some_2 objs l) as [x Hx]; [apply Hvalid; left|].
  rewrite Hx. destruct k as [|k]; cbn.
  - by rewrite Hx.
  - apply IH. intros l' Hl'. apply Hvalid. by right.
Qed.

Section WellFormed.
Context (w : World) (method : RenameMethod) (options : RenameOptions).
Context (updatedResults : list nat).

Lemma processFrom_length_objects (rest : list nat) (i : nat) (st : AppState) :
  length (objects (processFrom w method options updatedResults i rest st))
  = length (objects st).
Proof.
  revert i st. induction rest as [|l rest IH]; intros i st; [done|].
  cbn. rewrite IH, processRecord_objects. apply length_alter.
Qed.

(** When the loop visits every object once, the object at position [k] of
    the rest ends as the result of iteration [i + k] on what it was. *)
Lemma processFrom_lookup_at (rest : list nat) (i : nat) (st : AppState)
    (k l : nat) (r0 : ProcessedFile) :
  NoDup rest → rest !! k = Some l → objects st !! l = Some r0 →
  objects (processFrom w method options updatedResults i rest st) !! l
  = Some (processed w method options (i + k) r0).
Proof.
  revert i st k. induction rest as [|l0 rest IH]; intros i st k Hnodup Hk Hl; [done|].
  apply NoDup_cons in Hnodup as [Hnotin Hnodup].
  destruct k as [|k]; cbn in Hk |- *.
  - injection Hk as ->.
    rewrite processFrom_lookup_other, processRecord_objects, list_lookup_alter_eq, Hl
      by done.
    by rewrite Nat.add_0_r.
  - assert (l ≠ l0) as Hne.
    { intros ->. apply Hnotin. by eapply list_elem_of_lookup_2. }
    rewrite Nat.add_succ_r. apply (IH (S i) _ k); [done..|].
    rewrite processRecord_objects. by rewrite list_lookup_alter_ne.
Qed.
End WellFormed.

(** On a well-formed state [processFiles] is, record by record, the
    function [processed]: the record at position [k] becomes the result of
    iteration [k] on it. *)
Lemma processFiles_records (w : World) (previewOnly : bool) (st : AppState) :
  well_formed st → results st ≠ [] →
  records (processFiles w previewOnly st)
  = imap (processed w (renameMethod st) (mkOptions (customPattern st) (aiInstructions st)))
         (records st).
Proof.
  intros [Hnodup Hvalid] Hne. apply list_eq. intros k.
  rewrite list_lookup_imap. unfold records.
  rewrite processFiles_results, processFiles_objects by done.
  rewrite !deref_lookup; [|done|by intros l Hl; rewrite processFrom_length_objects; auto].
  destruct (results st !! k) as [l|] eqn:Hk; [|done]. cbn.
  destruct (lookup_lt_is_Some_2 (objects st) l) as [r0 Hr0].
  { apply Hvalid. by eapply list_elem_of_lookup_2. }
  rewrite Hr0. cbn.
  by rewrite (processFrom_lookup_at _ _ _ _ _ 0 st k l r0).
Qed.

Lemma processFiles_well_formed (w : World) (previewOnly : bool) (st : AppState) :
  well_formed st → well_formed (processFiles w previewOnly st).
Proof.
  intros [Hnodup Hvalid].
  destruct (decide (results st = [])) as [Hnil|Hne].
  - unfold processFiles. case_decide as Hlen; [by split|]. by rewrite Hnil in Hlen.
  - unfold well_formed. rewrite processFiles_results, processFiles_objects by done.
    split; [done|]. intros l Hl. rewrite processFrom_length_objects. auto.
Qed.

Lemma handleFilesSelected_well_formed (files : list File) (st : AppState) :
  well_formed st → well_formed (handleFilesSelected files st).
Proof.
  intros Hwf. unfold handleFilesSelected. case_decide; [done|].
  split; cbn.
  - apply NoDup_seq.
  - intros l Hl. apply elem_of_seq in Hl. rewrite length_app. lia.
Qed.

Lemma reachable_well_formed (st : AppState) : reachable st → well_formed st.
Proof.
  induction 1 as [|st a Hreach IH].
  - split; [constructor|]. intros l Hl. by apply elem_of_nil in Hl.
  - destruct a as [files| |m|p|a|w|w]; cbn; try done.
    + by apply handleFilesSelected_well_formed.
    + split; [constructor|]. intros l Hl. by apply elem_of_nil in Hl.
    + by apply processFiles_well_formed.
    + by apply processFiles_well_formed.
Qed.

(** The status and the name an iteration assigns depend on the file and on
    nothing else of the record. *)
Lemma processed_status_newName (w : World) (method : RenameMethod) (options : RenameOptions)
    (i : nat) (r1 r2 : ProcessedFile) :
  originalFile r1 = originalFile r2 →
  status (processed w method options i r1) = status (processed w method options i r2) ∧
  newName (processed w method options i r1) = newName (processed w method options i r2).
Proof.
  intros Hfile. unfold processed. rewrite Hfile.
  by destruct (deriveName w i (originalFile r2) method options) as [[[|c n]|]|e].
Qed.

Lemma Forall2_imap {A B} (R : A → B → Prop) (R' : A → B → Prop)
    (f : nat → A → A) (g : nat → B → B) (l1 : list A) (l2 : list B) :
  (∀ k x y, R x y → R' (f k x) (g k y)) →
  Forall2 R l1 l2 → Forall2 R' (imap f l1) (imap g l2).
Proof.
  intros Hfg Hall. revert f g Hfg.
  induction Hall as [|x y l1 l2 Hxy Hall IH]; intros f g Hfg; [constructor|].
  rewrite !imap_cons. constructor; [by apply Hfg|].
  apply IH. intros k x' y' Hxy'. by apply Hfg.
Qed.

(** What holds of C4 on the code: two batches of the same files, under the
    same settings and services, come out of a run with the same statuses
    and names, whatever status, name or message their records carried
    before. *)
Lemma processFiles_status_newName_fresh (w : World) (previewOnly : bool)
    (st1 st2 : AppState) :
  well_formed st1 → well_formed st2 →
  results st1 ≠ [] → results st2 ≠ [] →
  renameMethod st1 = renameMethod st2 →
  customPattern st1 = customPattern st2 →
  aiInstructions st1 = aiInstructions st2 →
  Forall2 (λ r1 r2, originalFile r1 = originalFile r2) (records st1) (records st2) →
  Forall2 (λ r1 r2, status r1 = status r2 ∧ newName r1 = newName r2)
          (records (processFiles w previewOnly st1))
          (records (processFiles w previewOnly st2)).
Proof.
  intros Hwf1 Hwf2 Hne1 Hne2 Hm Hp Ha Hfiles.
  rewrite !processFiles_records by done. rewrite Hm, Hp, Ha.
  eapply Forall2_imap; [|done].
  intros k r1 r2 Hfile. by apply processed_status_newName.
Qed.

(** ** The batch processor *)



(** C3: in every state a session can reach, a record of the batch has a
    non-empty [newName] exactly when its status is Success. *)
Theorem newName_nonempty_iff_Success (st : AppState) (r : ProcessedFile) :
  reachable st → r ∈ records st → (newName r ≠ "" ↔ status r = Success).
Proof.
  intros Hreach. revert r.
  induction Hreach as [|st a Hreach IH]; intros r Hr.
  - by apply elem_of_nil in Hr.
  - destruct a as [files| |m|p|a|w|w]; cbn in Hr; try by apply IH.
    + destruct (decide (files = [])) as [->|Hne]; [by apply IH|].
      rewrite handleFilesSelected_records in Hr by done.
      apply list_elem_of_fmap in Hr as (file & -> & _). by cbn.
    + by apply elem_of_nil in Hr.
    + destruct (decide (results st = [])) as [Hnil|Hne].
      * unfold processFiles in Hr. rewrite Hnil in Hr. by apply IH.
      * destruct (processFiles_record w true st r Hne Hr) as (j & r0 & ->).
        apply processed_newName_iff.
    + destruct (decide (results st = [])) as [Hnil|Hne].
      * unfold processFiles in Hr. rewrite Hnil in Hr. by apply IH.
      * destruct (processFiles_record w false st r Hne Hr) as (j & r0 & ->).
        apply processed_newName_iff.
Qed.

Lemma newName_nonempty_iff_Success_witness :
  let st := run [FilesSelected [scan_a; scan_b]; DownloadAll world_flaky] in
  let r := {| id := "scan-b.pdf-1700000000500"; originalFile := scan_b;
              originalName := "scan-b.pdf"; newName := ""; status := Error;
              message := Some "Invalid PDF structure." |} in
  reachable st ∧ r ∈ records st ∧ (newName r ≠ "" ↔ status r = Success).
Proof.
  split; [apply reachable_run|]. split; [vm_compute; right; left|].
  apply (newName_nonempty_iff_Success
           (run [FilesSelected [scan_a; scan_b]; DownloadAll world_flaky])).
  - apply reachable_run.
  - vm_compute. right; left.
Defined.

(** C9: a record that [processFiles] leaves in status Success carries the
    name the strategy returned for its text, whatever that string is, with
    ".pdf" appended. *)
Theorem success_newName_ends_with_pdf (w : World) (previewOnly : bool) (st : AppState)
    (r : ProcessedFile) :
  results st ≠ [] →
  r ∈ records (processFiles w previewOnly st) →
  status r = Success →
  ∃ i text n,
    extractTextFromPdf w i (originalFile r) = Returns text ∧
    getNewFilename w i text (renameMethod st)
      (mkOptions (customPattern st) (aiInstructions st)) = Returns (Some n) ∧
    newName r = n +:+ ".pdf".
Proof.
  intros Hne Hr Hs.
  destruct (processFiles_record w previewOnly st r Hne Hr) as (j & r0 & ->).
  destruct (processed_Success _ _ _ _ _ Hs) as (text & n & Hx & Hn & _ & Hnew).
  exists j, text, n.
  by rewrite (proj1 (proj2 (processed_fixed_fields _ _ _ _ _))).
Qed.

Lemma success_newName_ends_with_pdf_witness :
  let st := run [FilesSelected [scan_a; scan_b]] in
  let r := {| id := "scan-a.pdf-1700000000000"; originalFile := scan_a;
              originalName := "scan-a.pdf"; newName := "A-17.pdf"; status := Success;
              message := None |} in
  results st ≠ [] ∧ r ∈ records (processFiles world_flaky true st) ∧ status r = Success ∧
  ∃ i text n,
    extractTextFromPdf world_flaky i (originalFile r) = Returns text ∧
    getNewFilename world_flaky i text (renameMethod st)
      (mkOptions (customPattern st) (aiInstructions st)) = Returns (Some n) ∧
    newName r = n +:+ ".pdf".
Proof.
  split; [done|]. split; [vm_compute; left|]. split; [done|].
  apply (success_newName_ends_with_pdf world_flaky true
           (run [FilesSelected [scan_a; scan_b]])).
  - done.
  - vm_compute. left.
  - done.
Defined.

(** C6: on an empty batch [processFiles] appends one entry of severity
    error to the log and changes nothing else: the store, the batch, the
    settings, the processing flag and the downloads are as before. *)
Theorem processFiles_empty_batch (w : World) (previewOnly : bool) (st : AppState) :
  results st = [] →
  processFiles w previewOnly st =
    {| objects := objects st;
       results := results st;
       renameMethod := renameMethod st;
       customPattern := customPattern st;
       aiInstructions := aiInstructions st;
       isProcessing := isProcessing st;
       logs := logs st ++ [mkLog "No files to process. Please upload PDFs first." error];
       downloads := downloads st |}.
Proof.
  intros Hnil. unfold processFiles.
  case_decide as Hlen; [done|]. by rewrite Hnil in Hlen.
Qed.

Lemma processFiles_empty_batch_witness :
  let st := run [FilesSelected [scan_a]; ClearAll] in
  results st = [] ∧
  processFiles world_ok false st =
    {| objects := objects st;
       results := results st;
       renameMethod := renameMethod st;
       customPattern := customPattern st;
       aiInstructions := aiInstructions st;
       isProcessing := isProcessing st;
       logs := logs st ++ [mkLog "No files to process. Please upload PDFs first." error];
       downloads := downloads st |}.
Proof.
  split; [done|].
  apply (processFiles_empty_batch world_ok false (run [FilesSelected [scan_a]; ClearAll])).
  done.
Defined.

(** ** The upload handler *)

(** C10: [handleFilesSelected] on no file returns the state it was given;
    on one file or more, the batch becomes one new record per file, in
    order, each Idle with an empty [newName] and no message, and the log
    holds the load message and nothing else. *)
Theorem handleFilesSelected_spec (files : list File) (st : AppState) :
  handleFilesSelected [] st = st ∧
  (files ≠ [] →
   records (handleFilesSelected files st) = map newRecord files ∧
   (∀ r, r ∈ records (handleFilesSelected files st) →
         status r = Idle ∧ newName r = "" ∧ message r = None) ∧
   results (handleFilesSelected files st) = seq (length (objects st)) (length files) ∧
   logs (handleFilesSelected files st) =
     [mkLog ("Loaded " +:+ pretty (length files) +:+ " PDF file(s). Ready for processing.")
            info]).
Proof.
  split; [done|]. intros Hne.
  rewrite handleFilesSelected_records by done.
  split; [done|]. split.
  - intros r Hr. apply list_elem_of_fmap in Hr as (file & -> & _). by cbn.
  - unfold handleFilesSelected. case_decide as Hlen; [by destruct files|].
    cbn. by rewrite length_map.
Qed.

Lemma handleFilesSelected_spec_witness :
  let st := run [FilesSelected [scan_a]; Preview world_ok] in
  let st' := handleFilesSelected [scan_b; scan_a] st in
  handleFilesSelected [] st = st ∧
  [scan_b; scan_a] ≠ [] ∧
  records st' = map newRecord [scan_b; scan_a] ∧
  (∀ r, r ∈ records st' → status r = Idle ∧ newName r = "" ∧ message r = None) ∧
  results st' = seq (length (objects st)) 2 ∧
  logs st' = [mkLog "Loaded 2 PDF file(s). Ready for processing." info].
Proof.
  destruct (handleFilesSelected_spec [scan_b; scan_a]
              (run [FilesSelected [scan_a]; Preview world_ok])) as [Hnoop Hload].
  split; [exact Hnoop|]. split; [done|].
  apply Hload. done.
Defined.

(** ** The archive builder *)

Lemma zipLoop_payloads (nameCounts : gmap string nat) (zip : JSZip)
    (files : list ProcessedFile) :
  (zipLoop nameCounts zip files).*2 = zip.*2 ++ (originalFile <$> files).
Proof.
  revert nameCounts zip. induction files as [|r files IH]; intros nameCounts zip.
  - cbn. by rewrite app_nil_r.
  - cbn. destruct (resolveName nameCounts r) as [finalName nameCounts'].
    rewrite IH. unfold JSZip_file. rewrite fmap_app. cbn. by rewrite <- app_assoc.
Qed.

Lemma buildZip_payloads (files : list ProcessedFile) :
  (buildZip files).*2 = originalFile <$> files.
Proof. apply zipLoop_payloads. Qed.

(** *** The suffix rule *)

Lemma occurrences_snoc (n : string) (before : list ProcessedFile) (r : ProcessedFile) :
  occurrences n (before ++ [r])
  = occurrences n before + (if decide (newName r = n) then 1 else 0).
Proof.
  unfold occurrences. rewrite filter_app, length_app. f_equal.
  rewrite filter_cons. by case_decide.
Qed.

Lemma counts_empty : counts ∅ [].
Proof. intros n. by rewrite lookup_empty. Qed.

(** One step of the loop files the record under the rule's name and keeps
    [nameCounts] in step with the records seen. *)
Lemma resolveName_rule (nameCounts : gmap string nat) (before : list ProcessedFile)
    (r : ProcessedFile) :
  counts nameCounts before →
  (resolveName nameCounts r).1 = ruleName before r ∧
  counts (resolveName nameCounts r).2 (before ++ [r]).
Proof.
  intros Hcounts. unfold resolveName, ruleName.
  pose proof (Hcounts (newName r)) as Hr. rewrite Hr.
  destruct (occurrences (newName r) before) as [|k] eqn:Hocc.
  - split; [done|]. intros n. cbn. rewrite occurrences_snoc.
    destruct (decide (newName r = n)) as [<-|Hne].
    + by rewrite lookup_insert_eq, Hocc.
    + rewrite lookup_insert_ne, Nat.add_0_r by done. apply Hcounts.
  - split; [done|]. intros n. cbn. rewrite occurrences_snoc.
    destruct (decide (newName r = n)) as [<-|Hne].
    + by rewrite lookup_insert_eq, Hocc.
    + rewrite lookup_insert_ne, Nat.add_0_r by done. apply Hcounts.
Qed.

Lemma zipLoop_rule (nameCounts : gmap string nat) (zip : JSZip)
    (before files : list ProcessedFile) :
  counts nameCounts before →
  zipLoop nameCounts zip files = zip ++ ruleEntries before files.
Proof.
  revert nameCounts zip before.
  induction files as [|r files IH]; intros nameCounts zip before Hcounts.
  - cbn. by rewrite app_nil_r.
  - cbn. destruct (resolveName_rule nameCounts before r Hcounts) as [Hname Hcounts'].
    destruct (resolveName nameCounts r) as [finalName nameCounts'].
    cbn in Hname, Hcounts'. subst finalName.
    rewrite (IH _ _ (before ++ [r])) by done.
    unfold JSZip_file. by rewrite <- app_assoc.
Qed.

(** The loop of [handleDownloadZip] implements the rule: in processing
    order, the first record with a name keeps it and the k-th later one
    gets "_k" before the extension. *)
Lemma buildZip_rule (files : list ProcessedFile) :
  buildZip files = ruleEntries [] files.
Proof. apply (zipLoop_rule ∅ [] [] files), counts_empty. Qed.

Lemma replace_pdf_end_extension (n : string) : replace_pdf_end (n +:+ ".pdf") = n.
Proof.
  induction n as [|c n IH]; [done|].
  rewrite append_String_l. cbn [replace_pdf_end].
  case_decide as Heq; [|by rewrite IH].
  apply (f_equal String.length) in Heq. cbn in Heq.
  rewrite length_append in Heq. cbn in Heq. lia.
Qed.

(** C7: when no record of the captured batch has status Success,
    [handleDownloadZip] appends the entry that says so and changes nothing
    else (no download); otherwise the archive it builds holds, in order,
    the payloads of exactly the records with status Success, and that
    archive is what is offered for download if the archive step succeeds. *)
Theorem handleDownloadZip_spec (w : World) (captured : list nat) (st : AppState) :
  (filesToZip st captured = [] →
   handleDownloadZip w captured st =
     {| objects := objects st;
        results := results st;
        renameMethod := renameMethod st;
        customPattern := customPattern st;
        aiInstructions := aiInstructions st;
        isProcessing := isProcessing st;
        logs := logs st ++
                [mkLog "No files were successfully renamed to include in a ZIP." error];
        downloads := downloads st |}) ∧
  (filesToZip st captured ≠ [] →
   (∀ r, r ∈ filesToZip st captured ↔ r ∈ deref (objects st) captured ∧ status r = Success) ∧
   (buildZip (filesToZip st captured)).*2 = originalFile <$> filesToZip st captured ∧
   downloads (handleDownloadZip w captured st) =
     downloads st ++
     match generateAsync w (buildZip (filesToZip st captured)) with
     | Returns _ =>
         [mkDownload ("renamed_pdfs_" +:+ pretty (Date_now w) +:+ ".zip")
                     (buildZip (filesToZip st captured))]
     | Throws _ => []
     end).
Proof.
  split.
  - intros Hnil. unfold handleDownloadZip. by rewrite Hnil.
  - intros Hne. split; [|split].
    + intros r. unfold filesToZip. rewrite list_elem_of_filter. tauto.
    + apply buildZip_payloads.
    + by apply handleDownloadZip_downloads.
Qed.

(** C8: when the archive step raises, [handleDownloadZip] has appended its
    progress entry and exactly one entry of severity error, carrying the
    failure's message; the store of records and the batch are untouched,
    nothing is downloaded and the processing flag is down again. *)
Theorem handleDownloadZip_failure (w : World) (captured : list nat) (st : AppState)
    (e : Thrown) :
  filesToZip st captured ≠ [] →
  generateAsync w (buildZip (filesToZip st captured)) = Throws e →
  handleDownloadZip w captured st =
    {| objects := objects st;
       results := results st;
       renameMethod := renameMethod st;
       customPattern := customPattern st;
       aiInstructions := aiInstructions st;
       isProcessing := false;
       logs := logs st ++
               [mkLog ("Creating ZIP archive with "
                       +:+ pretty (length (filesToZip st captured)) +:+ " files...") info;
                mkLog ("Failed to create ZIP file: "
                       +:+ errorMessage e "An unknown ZIP error occurred.") error];
       downloads := downloads st |}.
Proof.
  intros Hne Hthrows. unfold handleDownloadZip.
  case_decide as Hlen; [by destruct (filesToZip st captured)|].
  rewrite Hthrows. unfold addLog, setLogs, setIsProcessing. cbn.
  by rewrite <- app_assoc.
Qed.

Lemma handleDownloadZip_spec_witness :
  let st := run [FilesSelected [scan_a; scan_b]; Preview world_flaky] in
  let st0 := run [FilesSelected [scan_b]; Preview world_flaky] in
  (filesToZip st0 (results st0) = [] ∧
   handleDownloadZip world_ok (results st0) st0 =
     {| objects := objects st0;
        results := results st0;
        renameMethod := renameMethod st0;
        customPattern := customPattern st0;
        aiInstructions := aiInstructions st0;
        isProcessing := isProcessing st0;
        logs := logs st0 ++
                [mkLog "No files were successfully renamed to include in a ZIP." error];
        downloads := downloads st0 |}) ∧
  (filesToZip st (results st) ≠ [] ∧
   (buildZip (filesToZip st (results st))).*2 = [scan_a] ∧
   downloads (handleDownloadZip world_ok (results st) st) =
     [mkDownload "renamed_pdfs_1700000001000.zip" [("A-17.pdf", scan_a)]]).
Proof.
  split.
  - split; [done|].
    apply (handleDownloadZip_spec world_ok
             (results (run [FilesSelected [scan_b]; Preview world_flaky]))
             (run [FilesSelected [scan_b]; Preview world_flaky])).
    done.
  - split; [done|].
    destruct (handleDownloadZip_spec world_ok
               (results (run [FilesSelected [scan_a; scan_b]; Preview world_flaky]))
               (run [FilesSelected [scan_a; scan_b]; Preview world_flaky]))
      as [_ Hsome].
    destruct Hsome as (_ & Hpayloads & Hdownloads); [done|].
    split; [exact Hpayloads | exact Hdownloads].
Defined.

Lemma handleDownloadZip_failure_witness :
  let st := run [FilesSelected [scan_a; scan_b]; Preview world_flaky] in
  filesToZip st (results st) ≠ [] ∧
  generateAsync world_flaky (buildZip (filesToZip st (results st)))
    = Throws (ErrorObject "JSZip is not defined") ∧
  handleDownloadZip world_flaky (results st) st =
    {| objects := objects st;
       results := results st;
       renameMethod := renameMethod st;
       customPattern := customPattern st;
       aiInstructions := aiInstructions st;
       isProcessing := false;
       logs := logs st ++
               [mkLog "Creating ZIP archive with 1 files..." info;
                mkLog "Failed to create ZIP file: JSZip is not defined" error];
       downloads := downloads st |}.
Proof.
  split; [done|]. split; [done|].
  apply (handleDownloadZip_failure world_flaky
           (results (run [FilesSelected [scan_a; scan_b]; Preview world_flaky]))
           (run [FilesSelected [scan_a; scan_b]; Preview world_flaky])
           (ErrorObject "JSZip is not defined")); done.
Defined.

(** ** Identities of uploaded records *)

Lemma contains_app (c : ascii) (s1 s2 : string) :
  contains c (s1 +:+ s2) = contains c s1 || contains c s2.
Proof.
  induction s1 as [|c' s1 IH]; [done|].
  simpl. rewrite IH. by destruct (decide (c' = c)).
Qed.

Lemma pretty_N_go_no_dash (x : N) (s : string) :
  contains "-" s = false → contains "-" (pretty_N_go x s) = false.
Proof.
  revert s. induction (N.lt_wf_0 x) as [x _ IH]; intros s Hs.
  destruct (decide (x = 0)%N) as [->|Hx].
  - by rewrite pretty_N_go_0.
  - rewrite pretty_N_go_step by lia.
    apply IH; [apply N.div_lt; lia|].
    cbn. case_decide as Hc; [|done].
    unfold pretty_N_char in Hc. by repeat case_match.
Qed.

Lemma pretty_Z_no_dash (z : Z) :
  (0 ≤ z)%Z → contains "-" (pretty z) = false.
Proof.
  intros Hz. destruct z as [|p|p]; [done| |lia].
  unfold pretty, pretty_Z, pretty, pretty_positive, pretty, pretty_N.
  case_decide; [done|]. by apply pretty_N_go_no_dash.
Qed.

(** A name, a hyphen and a numeral without hyphen split in one way only:
    at the last hyphen. *)
Lemma split_at_last_dash (n1 n2 d1 d2 : string) :
  contains "-" d1 = false → contains "-" d2 = false →
  n1 +:+ "-" +:+ d1 = n2 +:+ "-" +:+ d2 → n1 = n2 ∧ d1 = d2.
Proof.
  intros Hd1 Hd2. revert n2.
  induction n1 as [|c n1 IH]; intros [|c' n2] Heq;
    rewrite ?append_empty_l, ?append_String_l, ?append_empty_l in Heq.
  - by injection Heq.
  - injection Heq as Hc Hd. subst d1.
    rewrite contains_app in Hd1. simpl in Hd1.
    by rewrite orb_true_r in Hd1.
  - injection Heq as Hc Hd. subst d2.
    rewrite contains_app in Hd2. simpl in Hd2.
    by rewrite orb_true_r in Hd2.
  - injection Heq as <- Heq. destruct (IH n2 Heq) as [-> ->]. done.
Qed.

Lemma identity_inj (k1 k2 : string * Z) :
  (0 ≤ k1.2)%Z → (0 ≤ k2.2)%Z → identity k1 = identity k2 → k1 = k2.
Proof.
  destruct k1 as [n1 z1], k2 as [n2 z2]. unfold identity. cbn.
  intros Hz1 Hz2 Heq.
  apply split_at_last_dash in Heq as [-> Hz]; [|by apply pretty_Z_no_dash..].
  by apply (inj pretty) in Hz as ->.
Qed.

Lemma newRecord_identities (files : list File) :
  id <$> map newRecord files = identity <$> (fileKey <$> files).
Proof. induction files as [|file files IH]; [done|]. cbn. by f_equal. Qed.

(** C5, as the code has it: the identity of a record is the file's name, a
    hyphen and its modification time in decimal; the identities of a batch
    built by an upload are pairwise distinct when no two of the files agree
    on both name and modification time, the modification times being
    non-negative safe integers (at most 2^53 - 1, where a Number prints as
    its decimal numeral). *)
Theorem handleFilesSelected_ids_unique (files : list File) (st : AppState) :
  files ≠ [] →
  Forall safe_time files →
  NoDup (fileKey <$> files) →
  (∀ r, r ∈ records (handleFilesSelected files st) →
        id r = originalName r +:+ "-" +:+ pretty (file_lastModified (originalFile r))) ∧
  NoDup (id <$> records (handleFilesSelected files st)).
Proof.
  intros Hne Hpos Hkeys.
  rewrite handleFilesSelected_records by done. split.
  - intros r Hr. apply list_elem_of_fmap in Hr as (file & -> & _). done.
  - rewrite newRecord_identities.
    apply NoDup_fmap_2_strong; [|done].
    intros k1 k2 Hk1 Hk2.
    apply list_elem_of_fmap in Hk1 as (f1 & -> & Hf1).
    apply list_elem_of_fmap in Hk2 as (f2 & -> & Hf2).
    rewrite Forall_forall in Hpos.
    apply identity_inj; cbn; by apply Hpos.
Qed.

Lemma handleFilesSelected_ids_unique_witness :
  let st' := handleFilesSelected [scan_a; scan_b; scan_c] initialState in
  [scan_a; scan_b; scan_c] ≠ [] ∧
  Forall safe_time [scan_a; scan_b; scan_c] ∧
  NoDup (fileKey <$> [scan_a; scan_b; scan_c]) ∧
  (∀ r, r ∈ records st' →
        id r = originalName r +:+ "-" +:+ pretty (file_lastModified (originalFile r))) ∧
  NoDup (id <$> records st').
Proof.
  assert (Hpos : Forall safe_time [scan_a; scan_b; scan_c]).
  { repeat constructor; unfold MAX_SAFE_INTEGER; cbn; lia. }
  assert (Hkeys : NoDup (fileKey <$> [scan_a; scan_b; scan_c])).
  { compute_done. }
  split; [done|]. split; [exact Hpos|]. split; [exact Hkeys|].
  apply (handleFilesSelected_ids_unique [scan_a; scan_b; scan_c] initialState);
    [done | exact Hpos | exact Hkeys].
Defined.

(** Negative modification times are left out of the statement above for a
    reason: the hyphen of the identity and the sign of the number cannot
    be told apart. (Times beyond the safe integers are left out because a
    Number of that size does not print as its decimal numeral.) *)
Lemma identity_clash_negative : identity ("scan", (-5)%Z) = identity ("scan-", 5%Z).
Proof. reflexivity. Qed.

(** C5, as stated, fails: two files with the same name and modification
    time give two records with the same identity. *)
Lemma handleFilesSelected_ids_clash :
  ¬ NoDup (id <$> records (handleFilesSelected [scan_a; scan_a_copy] initialState)).
Proof.
  rewrite handleFilesSelected_records by done.
  intros Hnodup. apply NoDup_cons in Hnodup as [Hnotin _].
  apply Hnotin. vm_compute. left.
Qed.

(** ** Where the code departs from its specification *)

(** C1 does not hold of the code. Three uploads are processed and offered
    for download; all three records reach Success, with the names
    INV-7.pdf, INV-7.pdf and INV-7_1.pdf. The second is a duplicate and is
    filed under INV-7_1.pdf; the third, whose own name has not occurred
    before, is filed under INV-7_1.pdf too: two payloads share one final
    name. *)
Theorem handleDownloadZip_name_clash :
  let st := run [FilesSelected [scan_a; scan_b; scan_c]; DownloadAll world_invoices] in
  status <$> records st = [Success; Success; Success] ∧
  newName <$> records st = ["INV-7.pdf"; "INV-7.pdf"; "INV-7_1.pdf"] ∧
  downloads st =
    [mkDownload "renamed_pdfs_1700000003000.zip"
       [("INV-7.pdf", scan_a); ("INV-7_1.pdf", scan_b); ("INV-7_1.pdf", scan_c)]] ∧
  ¬ NoDup (buildZip (filesToZip st (results st))).*1.
Proof.
  split; [done|]. split; [done|]. split; [done|].
  intros Hnodup. vm_compute in Hnodup.
  apply NoDup_cons in Hnodup as [_ Hnodup].
  apply NoDup_cons in Hnodup as [Hnotin _].
  apply Hnotin. left.
Qed.

(** C4 does not hold of the code. A record that ended a first run in Error
    keeps that run's message through a second run that brings it to
    Success, whereas the same file processed once, under the same settings
    and services, has no message: the outcome depends on what the prior
    run left in the record. *)
Theorem processFiles_keeps_stale_message :
  records (run session_rerun) =
    [{| id := "scan-a.pdf-1700000000000"; originalFile := scan_a;
        originalName := "scan-a.pdf"; newName := "A-17.pdf"; status := Success;
        message := Some "Invalid regular expression: Unterminated group" |}] ∧
  records (run session_fresh) =
    [{| id := "scan-a.pdf-1700000000000"; originalFile := scan_a;
        originalName := "scan-a.pdf"; newName := "A-17.pdf"; status := Success;
        message := None |}].
Proof. split; reflexivity. Qed.

(* ================================================================== *)
(** * Further properties of the handlers *)
(* ================================================================== *)

(** ** What a run does to each record *)

Lemma records_nonempty (st : AppState) (k : nat) (r : ProcessedFile) :
  records st !! k = Some r → results st ≠ [].
Proof. intros Hk Hnil. unfold records in Hk. by rewrite Hnil in Hk. Qed.

Lemma processFiles_lookup (w : World) (previewOnly : bool) (st : AppState)
    (k : nat) (r0 : ProcessedFile) :
  well_formed st → records st !! k = Some r0 →
  records (processFiles w previewOnly st) !! k
  = Some (processed w (renameMethod st)
            (mkOptions (customPattern st) (aiInstructions st)) k r0).
Proof.
  intros Hwf Hk.
  rewrite processFiles_records by eauto using records_nonempty.
  by rewrite list_lookup_imap, Hk.
Qed.

(** X1: when the text of the record at position [k] is extracted and is
    not empty, and the strategy returns a non-empty name for it, the run
    leaves that record in Success under that name with ".pdf" appended;
    its identity, file, original name and message are as before. *)
Theorem processFiles_record_success (w : World) (previewOnly : bool) (st : AppState)
    (k : nat) (r0 : ProcessedFile) (text n : string) :
  reachable st →
  records st !! k = Some r0 →
  extractTextFromPdf w k (originalFile r0) = Returns text →
  text ≠ "" →
  getNewFilename w k text (renameMethod st)
    (mkOptions (customPattern st) (aiInstructions st)) = Returns (Some n) →
  n ≠ "" →
  records (processFiles w previewOnly st) !! k
  = Some {| id := id r0; originalFile := originalFile r0; originalName := originalName r0;
            newName := n +:+ ".pdf"; status := Success; message := message r0 |}.
Proof.
  intros Hreach Hk Hx Htext Hn Hne.
  rewrite (processFiles_lookup w previewOnly st k r0)
    by auto using reachable_well_formed.
  unfold processed, deriveName. rewrite Hx.
  case_decide; [done|]. rewrite Hn.
  destruct n as [|c n]; done.
Qed.

Lemma processFiles_record_success_witness :
  let st := run [FilesSelected [scan_b; scan_a]] in
  reachable st ∧
  records st !! 1 = Some (newRecord scan_a) ∧
  extractTextFromPdf world_flaky 1 scan_a = Returns "Invoice No: A-17" ∧
  "Invoice No: A-17" ≠ "" ∧
  getNewFilename world_flaky 1 "Invoice No: A-17" (renameMethod st)
    (mkOptions (customPattern st) (aiInstructions st)) = Returns (Some "A-17") ∧
  "A-17" ≠ "" ∧
  records (processFiles world_flaky true st) !! 1
  = Some {| id := "scan-a.pdf-1700000000000"; originalFile := scan_a;
            originalName := "scan-a.pdf"; newName := "A-17.pdf"; status := Success;
            message := None |}.
Proof.
  split; [apply reachable_run|]. do 5 (split; [done|]).
  apply (processFiles_record_success world_flaky true
           (run [FilesSelected [scan_b; scan_a]]) 1 (newRecord scan_a)
           "Invoice No: A-17" "A-17"); try done.
  apply reachable_run.
Defined.

(** X2: when processing the record at position [k] fails (the extraction
    rejects, or yields an empty text, or the strategy rejects), the run
    leaves that record in Error with an empty [newName] and the failure's
    message: the message of the [Error] thrown, "Could not extract text
    from PDF." for an empty text, "An unknown error occurred." for a thrown
    value that is no [Error]. *)
Theorem processFiles_record_failure (w : World) (previewOnly : bool) (st : AppState)
    (k : nat) (r0 : ProcessedFile) (e : Thrown) :
  reachable st →
  records st !! k = Some r0 →
  extractTextFromPdf w k (originalFile r0) = Throws e ∨
  (extractTextFromPdf w k (originalFile r0) = Returns "" ∧
   e = ErrorObject "Could not extract text from PDF.") ∨
  (∃ text, extractTextFromPdf w k (originalFile r0) = Returns text ∧ text ≠ "" ∧
           getNewFilename w k text (renameMethod st)
             (mkOptions (customPattern st) (aiInstructions st)) = Throws e) →
  records (processFiles w previewOnly st) !! k
  = Some {| id := id r0; originalFile := originalFile r0; originalName := originalName r0;
            newName := ""; status := Error;
            message := Some match e with
                            | ErrorObject msg => msg
                            | OtherThrown => "An unknown error occurred."
                            end |}.
Proof.
  intros Hreach Hk Hfail.
  rewrite (processFiles_lookup w previewOnly st k r0)
    by auto using reachable_well_formed.
  unfold processed, deriveName.
  destruct Hfail as [Hx|[[Hx ->]|(text & Hx & Htext & Hn)]]; rewrite Hx.
  - done.
  - done.
  - case_decide; [done|]. by rewrite Hn.
Qed.

Lemma processFiles_record_failure_witness :
  let st := run [FilesSelected [scan_b; scan_a]] in
  reachable st ∧
  records st !! 0 = Some (newRecord scan_b) ∧
  extractTextFromPdf world_flaky 0 scan_b = Throws (ErrorObject "Invalid PDF structure.") ∧
  records (processFiles world_flaky false st) !! 0
  = Some {| id := "scan-b.pdf-1700000000500"; originalFile := scan_b;
            originalName := "scan-b.pdf"; newName := ""; status := Error;
            message := Some "Invalid PDF structure." |}.
Proof.
  split; [apply reachable_run|]. do 2 (split; [done|]).
  apply (processFiles_record_failure world_flaky false
           (run [FilesSelected [scan_b; scan_a]]) 0 (newRecord scan_b)
           (ErrorObject "Invalid PDF structure.")).
  - apply reachable_run.
  - done.
  - by left.
Defined.

(** X3: when the text of the record at position [k] is extracted and the
    strategy returns no name (or the empty string), the run leaves that
    record in NoMatch with an empty [newName]; the message is the one the
    record had. *)
Theorem processFiles_record_no_match (w : World) (previewOnly : bool) (st : AppState)
    (k : nat) (r0 : ProcessedFile) (text : string) (answer : option string) :
  reachable st →
  records st !! k = Some r0 →
  extractTextFromPdf w k (originalFile r0) = Returns text →
  text ≠ "" →
  getNewFilename w k text (renameMethod st)
    (mkOptions (customPattern st) (aiInstructions st)) = Returns answer →
  answer = None ∨ answer = Some "" →
  records (processFiles w previewOnly st) !! k
  = Some {| id := id r0; originalFile := originalFile r0; originalName := originalName r0;
            newName := ""; status := NoMatch; message := message r0 |}.
Proof.
  intros Hreach Hk Hx Htext Hn Hanswer.
  rewrite (processFiles_lookup w previewOnly st k r0)
    by auto using reachable_well_formed.
  unfold processed, deriveName. rewrite Hx.
  case_decide; [done|]. rewrite Hn.
  by destruct Hanswer as [->| ->].
Qed.

Lemma processFiles_record_no_match_witness :
  let st := run [FilesSelected [scan_a]] in
  reachable st ∧
  records st !! 0 = Some (newRecord scan_a) ∧
  extractTextFromPdf world_no_match 0 scan_a = Returns "Statement of account" ∧
  "Statement of account" ≠ "" ∧
  getNewFilename world_no_match 0 "Statement of account" (renameMethod st)
    (mkOptions (customPattern st) (aiInstructions st)) = Returns None ∧
  (@None string = None ∨ None = Some "") ∧
  records (processFiles world_no_match true st) !! 0
  = Some {| id := "scan-a.pdf-1700000000000"; originalFile := scan_a;
            originalName := "scan-a.pdf"; newName := ""; status := NoMatch;
            message := None |}.
Proof.
  split; [apply reachable_run|]. do 4 (split; [done|]). split; [by left|].
  apply (processFiles_record_no_match world_no_match true
           (run [FilesSelected [scan_a]]) 0 (newRecord scan_a)
           "Statement of account" None); try done.
  - apply reachable_run.
  - by left.
Defined.

Lemma fmap_imap_fixed {A B} (f : A → B) (g : nat → A → A) (l : list A) :
  (∀ k x, f (g k x) = f x) → f <$> imap g l = f <$> l.
Proof.
  intros Hfix. revert g Hfix. induction l as [|x l IH]; intros g Hfix; [done|].
  rewrite imap_cons. cbn. rewrite Hfix. f_equal. apply IH. intros k y. apply Hfix.
Qed.

(** X4: a run changes no record's identity, file or original name, and
    keeps the batch in its order. *)
Theorem processFiles_keeps_documents (w : World) (previewOnly : bool) (st : AppState) :
  reachable st →
  id <$> records (processFiles w previewOnly st) = id <$> records st ∧
  originalFile <$> records (processFiles w previewOnly st) = originalFile <$> records st ∧
  originalName <$> records (processFiles w previewOnly st) = originalName <$> records st.
Proof.
  intros Hreach. apply reachable_well_formed in Hreach.
  destruct (decide (results st = [])) as [Hnil|Hne].
  - unfold processFiles. by rewrite Hnil.
  - rewrite processFiles_records by done.
    repeat split; apply fmap_imap_fixed; intros k r;
      by destruct (processed_fixed_fields w (renameMethod st)
                     (mkOptions (customPattern st) (aiInstructions st)) k r)
        as (? & ? & ?).
Qed.

Lemma processFiles_keeps_documents_witness :
  let st := run [FilesSelected [scan_a; scan_b]; Preview world_flaky] in
  let st' := processFiles world_ok false st in
  reachable st ∧
  id <$> records st' = id <$> records st ∧
  originalFile <$> records st' = originalFile <$> records st ∧
  originalName <$> records st' = originalName <$> records st.
Proof.
  split; [apply reachable_run|].
  apply (processFiles_keeps_documents world_ok false
           (run [FilesSelected [scan_a; scan_b]; Preview world_flaky])).
  apply reachable_run.
Defined.

(** X5: the statuses and names a run assigns depend on the files, the
    settings and the services, and on nothing a prior run left behind: two
    reachable states whose batches hold the same files in the same order,
    under the same settings, come out of a run with the same statuses and
    the same names. *)
Theorem processFiles_outcome_fresh (w : World) (previewOnly1 previewOnly2 : bool)
    (st1 st2 : AppState) :
  reachable st1 → reachable st2 →
  results st1 ≠ [] →
  settings st1 = settings st2 →
  originalFile <$> records st1 = originalFile <$> records st2 →
  status <$> records (processFiles w previewOnly1 st1)
    = status <$> records (processFiles w previewOnly2 st2) ∧
  newName <$> records (processFiles w previewOnly1 st1)
    = newName <$> records (processFiles w previewOnly2 st2).
Proof.
  intros Hr1 Hr2 Hne1 Hset Hfiles.
  apply reachable_well_formed in Hr1, Hr2.
  assert (results st2 ≠ []) as Hne2.
  { intros Hnil. unfold records in Hfiles. rewrite Hnil in Hfiles. cbn in Hfiles.
    apply fmap_nil_inv in Hfiles.
    destruct Hr1 as [_ Hvalid]. destruct (results st1) as [|l rs] eqn:Hrs; [done|].
    destruct (lookup_lt_is_Some_2 (objects st1) l) as [x Hx]; [apply Hvalid; left|].
    unfold deref in Hfiles. cbn in Hfiles. by rewrite Hx in Hfiles. }
  rewrite !processFiles_records by done.
  injection Hset as -> -> ->.
  assert (∀ (f1 f2 : nat → ProcessedFile → ProcessedFile) l1 l2,
            originalFile <$> l1 = originalFile <$> l2 →
            (∀ k r1 r2, originalFile r1 = originalFile r2 →
                        status (f1 k r1) = status (f2 k r2) ∧
                        newName (f1 k r1) = newName (f2 k r2)) →
            status <$> imap f1 l1 = status <$> imap f2 l2 ∧
            newName <$> imap f1 l1 = newName <$> imap f2 l2) as Himap.
  { intros f1 f2 l1. revert f1 f2.
    induction l1 as [|r1 l1 IH]; intros f1 f2 [|r2 l2] Heq Hf; try done.
    injection Heq as Hhd Htl. rewrite !imap_cons. cbn.
    destruct (Hf 0 r1 r2 Hhd) as [-> ->].
    destruct (IH (f1 ∘ S) (f2 ∘ S) l2 Htl) as [-> ->]; [|done].
    intros k x y Hxy. by apply Hf. }
  apply Himap; [done|].
  intros k r1 r2 Hfile. by apply processed_status_newName.
Qed.

Lemma processFiles_outcome_fresh_witness :
  let st1 := run [FilesSelected [scan_a; scan_b]; Preview world_flaky] in
  let st2 := run [FilesSelected [scan_a; scan_b]] in
  reachable st1 ∧ reachable st2 ∧ results st1 ≠ [] ∧ settings st1 = settings st2 ∧
  originalFile <$> records st1 = originalFile <$> records st2 ∧
  status <$> records (processFiles world_ok true st1)
    = status <$> records (processFiles world_ok false st2) ∧
  newName <$> records (processFiles world_ok true st1)
    = newName <$> records (processFiles world_ok false st2).
Proof.
  do 2 (split; [apply reachable_run|]). do 3 (split; [done|]).
  apply (processFiles_outcome_fresh world_ok true false
           (run [FilesSelected [scan_a; scan_b]; Preview world_flaky])
           (run [FilesSelected [scan_a; scan_b]])); try done; apply reachable_run.
Defined.

(** ** Invariants of a session *)

Lemma handleDownloadZip_isProcessing (w : World) (captured : list nat) (st : AppState) :
  isProcessing st = false → isProcessing (handleDownloadZip w captured st) = false.
Proof.
  intros Hidle. unfold handleDownloadZip. case_decide; [done|].
  by destruct (generateAsync w _).
Qed.

Lemma handleDownloadZip_settings (w : World) (captured : list nat) (st : AppState) :
  settings (handleDownloadZip w captured st) = settings st.
Proof.
  unfold handleDownloadZip. case_decide; [done|].
  by destruct (generateAsync w _).
Qed.

(** The state [processFiles(false)] hands to the archive builder: the
    loop's store, with nothing downloaded yet and the flag lowered. *)
Lemma processFiles_false_split (w : World) (st : AppState) :
  results st ≠ [] →
  ∃ stL, processFiles w false st = handleDownloadZip w (results st) stL ∧
         objects stL = objects (processFiles w true st) ∧
         results stL = results st ∧
         settings stL = settings st ∧
         isProcessing stL = false ∧
         downloads stL = downloads st.
Proof.
  intros Hne.
  pose proof (processFiles_objects w true st Hne) as Htrue.
  pose proof (processFiles_objects w false st Hne) as Hfalse.
  pose proof (processFiles_results w false st) as Hres.
  set (previewed := processFiles w true st) in *.
  unfold processFiles in Hfalse, Hres |- *.
  case_decide as Hlen; [by destruct (results st)|].
  eexists. split; [reflexivity|].
  rewrite (proj1 (handleDownloadZip_store _ _ _)) in Hfalse.
  rewrite (proj2 (handleDownloadZip_store _ _ _)) in Hres.
  split; [by rewrite Hfalse, Htrue|]. split; [done|].
  unfold settings. cbn.
  by destruct (processFrom_frame w (renameMethod st)
                 (mkOptions (customPattern st) (aiInstructions st)) (results st)
                 (results st) 0
                 (addLog "Starting file processing for download..." info
                    (setIsProcessing true st)))
    as (-> & -> & -> & _ & ->).
Qed.

Lemma processFiles_isProcessing (w : World) (previewOnly : bool) (st : AppState) :
  results st ≠ [] → isProcessing (processFiles w previewOnly st) = false.
Proof.
  intros Hne. destruct previewOnly.
  - unfold processFiles. case_decide; [by destruct (results st)|]. done.
  - destruct (processFiles_false_split w st Hne) as (stL & -> & _ & _ & _ & Hidle & _).
    by apply handleDownloadZip_isProcessing.
Qed.

Lemma processFiles_settings (w : World) (previewOnly : bool) (st : AppState) :
  settings (processFiles w previewOnly st) = settings st.
Proof.
  destruct (decide (results st = [])) as [Hnil|Hne].
  { unfold processFiles. by rewrite Hnil. }
  destruct previewOnly.
  - unfold processFiles. case_decide; [by destruct (results st)|].
    unfold settings. cbn.
    by destruct (processFrom_frame w (renameMethod st)
                   (mkOptions (customPattern st) (aiInstructions st)) (results st)
                   (results st) 0
                   (addLog "Starting rename PREVIEW..." info (setIsProcessing true st)))
      as (-> & -> & -> & _).
  - destruct (processFiles_false_split w st Hne) as (stL & -> & _ & _ & Hset & _).
    by rewrite handleDownloadZip_settings.
Qed.

(** X6: between two actions of the user the processing flag is down:
    every handler that raises it lowers it again before it returns, also
    when a service or the archive step fails. *)
Theorem isProcessing_lowered (st : AppState) :
  reachable st → isProcessing st = false.
Proof.
  induction 1 as [|st a Hreach IH]; [done|].
  destruct a as [files| |m|p|a|w|w]; cbn; try done.
  - unfold handleFilesSelected. by case_decide.
  - destruct (decide (results st = [])) as [Hnil|Hne].
    + unfold processFiles. by rewrite Hnil.
    + by apply processFiles_isProcessing.
  - destruct (decide (results st = [])) as [Hnil|Hne].
    + unfold processFiles. by rewrite Hnil.
    + by apply processFiles_isProcessing.
Qed.

Lemma isProcessing_lowered_witness :
  let st := run [FilesSelected [scan_a; scan_b]; DownloadAll world_flaky] in
  reachable st ∧ isProcessing st = false.
Proof.
  split; [apply reachable_run|].
  apply (isProcessing_lowered (run [FilesSelected [scan_a; scan_b]; DownloadAll world_flaky])).
  apply reachable_run.
Defined.

(** X7: the rename method, the custom pattern and the AI instructions
    change through their setters only: an upload, a clear, a run of the
    processor (preview or download) and the archive builder leave them as
    they are. *)
Theorem settings_kept (w : World) (previewOnly : bool) (files : list File)
    (captured : list nat) (st : AppState) :
  settings (handleFilesSelected files st) = settings st ∧
  settings (clearAll st) = settings st ∧
  settings (processFiles w previewOnly st) = settings st ∧
  settings (handleDownloadZip w captured st) = settings st.
Proof.
  split; [|split; [done|split]].
  - unfold handleFilesSelected. by case_decide.
  - apply processFiles_settings.
  - apply handleDownloadZip_settings.
Qed.

Lemma processed_Error_message (w : World) (method : RenameMethod) (options : RenameOptions)
    (i : nat) (r : ProcessedFile) :
  status (processed w method options i r) = Error →
  ∃ m, message (processed w method options i r) = Some m.
Proof.
  unfold processed.
  destruct (deriveName w i (originalFile r) method options) as [[[|c n]|]|e];
    cbn; intros Hs; try done.
  by eexists.
Qed.

(** X8: in every state a session can reach, a record in status Error
    carries a message. *)
Theorem Error_has_message (st : AppState) (r : ProcessedFile) :
  reachable st → r ∈ records st → status r = Error → ∃ m, message r = Some m.
Proof.
  intros Hreach. revert r.
  induction Hreach as [|st a Hreach IH]; intros r Hr Herr.
  - by apply elem_of_nil in Hr.
  - destruct a as [files| |m|p|a|w|w]; cbn in Hr; try by apply IH.
    + destruct (decide (files = [])) as [->|Hne]; [by apply IH|].
      rewrite handleFilesSelected_records in Hr by done.
      by apply list_elem_of_fmap in Hr as (file & -> & _).
    + by apply elem_of_nil in Hr.
    + destruct (decide (results st = [])) as [Hnil|Hne].
      * unfold processFiles in Hr. rewrite Hnil in Hr. by apply IH.
      * destruct (processFiles_record w true st r Hne Hr) as (j & r0 & ->).
        by apply processed_Error_message.
    + destruct (decide (results st = [])) as [Hnil|Hne].
      * unfold processFiles in Hr. rewrite Hnil in Hr. by apply IH.
      * destruct (processFiles_record w false st r Hne Hr) as (j & r0 & ->).
        by apply processed_Error_message.
Qed.

Lemma Error_has_message_witness :
  let st := run [FilesSelected [scan_a; scan_b]; Preview world_flaky; Preview world_ok;
                 Preview world_flaky] in
  let r := {| id := "scan-b.pdf-1700000000500"; originalFile := scan_b;
              originalName := "scan-b.pdf"; newName := ""; status := Error;
              message := Some "Invalid PDF structure." |} in
  reachable st ∧ r ∈ records st ∧ status r = Error ∧ ∃ m, message r = Some m.
Proof.
  split; [apply reachable_run|]. split; [vm_compute; right; left|]. split; [done|].
  apply (Error_has_message
           (run [FilesSelected [scan_a; scan_b]; Preview world_flaky; Preview world_ok;
                 Preview world_flaky])).
  - apply reachable_run.
  - vm_compute. right; left.
  - done.
Defined.

(** X9: between two actions of the user a batch is never half processed:
    either every record is Idle (the batch was uploaded and not run) or
    every record is in a terminal status. *)
Theorem batch_idle_or_processed (st : AppState) :
  reachable st →
  (∀ r, r ∈ records st → status r = Idle) ∨
  (∀ r, r ∈ records st → status r = Success ∨ status r = Error ∨ status r = NoMatch).
Proof.
  induction 1 as [|st a Hreach IH].
  - left. intros r Hr. by apply elem_of_nil in Hr.
  - destruct a as [files| |m|p|a|w|w]; cbn; try done.
    + destruct (decide (files = [])) as [->|Hne]; [done|].
      left. intros r Hr. rewrite handleFilesSelected_records in Hr by done.
      by apply list_elem_of_fmap in Hr as (file & -> & _).
    + left. intros r Hr. by apply elem_of_nil in Hr.
    + destruct (decide (results st = [])) as [Hnil|Hne].
      * unfold processFiles. by rewrite Hnil.
      * right. intros r Hr.
        destruct (processFiles_record w true st r Hne Hr) as (j & r0 & ->).
        apply processed_terminal.
    + destruct (decide (results st = [])) as [Hnil|Hne].
      * unfold processFiles. by rewrite Hnil.
      * right. intros r Hr.
        destruct (processFiles_record w false st r Hne Hr) as (j & r0 & ->).
        apply processed_terminal.
Qed.

Lemma batch_idle_or_processed_witness :
  let st := run [FilesSelected [scan_a]; Preview world_ok; FilesSelected [scan_b; scan_c]] in
  reachable st ∧
  ((∀ r, r ∈ records st → status r = Idle) ∨
   (∀ r, r ∈ records st → status r = Success ∨ status r = Error ∨ status r = NoMatch)).
Proof.
  split; [apply reachable_run|].
  apply (batch_idle_or_processed
           (run [FilesSelected [scan_a]; Preview world_ok; FilesSelected [scan_b; scan_c]])).
  apply reachable_run.
Defined.

(** ** Downloads *)

(** X10: a preview downloads nothing. A download run offers at most one
    archive, and the [zip.file] calls made to build that archive carry, in
    order, the files of the records this very run left in Success: one
    call per such record. (What the library keeps of two calls under one
    name is not said here.) *)
Theorem processFiles_downloads (w : World) (st : AppState) :
  downloads (processFiles w true st) = downloads st ∧
  (downloads (processFiles w false st) = downloads st ∨
   ∃ d, downloads (processFiles w false st) = downloads st ++ [d] ∧
        (download_zip d).*2
        = originalFile <$> filter (λ r, status r = Success)
                                  (records (processFiles w false st))).
Proof.
  split.
  - unfold processFiles. case_decide; [done|]. cbn.
    by destruct (processFrom_frame w (renameMethod st)
                   (mkOptions (customPattern st) (aiInstructions st)) (results st)
                   (results st) 0
                   (addLog "Starting rename PREVIEW..." info (setIsProcessing true st)))
      as (_ & _ & _ & _ & ->).
  - destruct (decide (results st = [])) as [Hnil|Hne].
    { left. unfold processFiles. by rewrite Hnil. }
    destruct (processFiles_false_split w st Hne)
      as (stL & Hsplit & _ & Hres & _ & _ & Hdl).
    assert (records (processFiles w false st) = deref (objects stL) (results st)) as Hrec.
    { unfold records. rewrite Hsplit.
      destruct (handleDownloadZip_store w (results st) stL) as [-> ->].
      by rewrite Hres. }
    rewrite Hrec, Hsplit.
    change (filter (λ r, status r = Success) (deref (objects stL) (results st)))
      with (filesToZip stL (results st)).
    destruct (decide (filesToZip stL (results st) = [])) as [Hnone|Hsome].
    + left. unfold handleDownloadZip. by rewrite Hnone.
    + rewrite handleDownloadZip_downloads, Hdl by done.
      destruct (generateAsync w (buildZip (filesToZip stL (results st)))) as [u|e].
      * right. eexists. split; [done|]. cbn. apply buildZip_payloads.
      * left. by rewrite app_nil_r.
Qed.

(** ** The log *)

Lemma deref_cons_Some (objs : list ProcessedFile) (l : nat) (refs : list nat)
    (r : ProcessedFile) :
  objs !! l = Some r → deref objs (l :: refs) = r :: deref objs refs.
Proof. intros Hl. unfold deref. cbn. by rewrite Hl. Qed.

Section Log.
Context (w : World) (method : RenameMethod) (options : RenameOptions).
Context (updatedResults : list nat).

(** An iteration appends two entries: the progress line of the record and
    one line for its outcome, of severity success exactly when the record
    ends in Success. *)
Lemma processRecord_logs (i l : nat) (st : AppState) (r : ProcessedFile) :
  objects st !! l = Some r →
  ∃ entry,
    logs (processRecord w method options updatedResults i l st)
    = logs st ++ [mkLog ("Processing: " +:+ originalName r) info; entry] ∧
    (log_type entry = success ↔ status (processed w method options i r) = Success).
Proof.
  intros Hl. unfold processRecord, processed. rewrite Hl.
  destruct (deriveName w i (originalFile r) method options) as [[[|c n]|]|e];
    cbn; eexists; (split; [by rewrite <- app_assoc|]); cbn; by split.
Qed.

Lemma processRecord_logs_prefix (i l : nat) (st : AppState) :
  logs st `prefix_of` logs (processRecord w method options updatedResults i l st).
Proof.
  destruct (objects st !! l) as [r|] eqn:Hl.
  - destruct (processRecord_logs i l st r Hl) as (entry & -> & _).
    by apply prefix_app_r.
  - unfold processRecord. by rewrite Hl.
Qed.

Lemma processFrom_logs_prefix (rest : list nat) (i : nat) (st : AppState) :
  logs st `prefix_of` logs (processFrom w method options updatedResults i rest st).
Proof.
  revert i st. induction rest as [|l rest IH]; intros i st; [done|].
  cbn. etrans; [apply (processRecord_logs_prefix i l)|apply IH].
Qed.

Lemma processFrom_logs_count (rest : list nat) (i : nat) (st : AppState) :
  NoDup rest → (∀ l, l ∈ rest → l < length (objects st)) →
  length (logs (processFrom w method options updatedResults i rest st))
  = length (logs st) + 2 * length rest ∧
  length (entriesOf success (logs (processFrom w method options updatedResults i rest st)))
  = length (entriesOf success (logs st))
    + length (filter (λ r, status r = Success)
                (deref (objects (processFrom w method options updatedResults i rest st))
                       rest)).
Proof.
  revert i st. induction rest as [|l rest IH]; intros i st Hnodup Hvalid.
  { cbn. split; lia. }
  apply NoDup_cons in Hnodup as [Hnotin Hnodup].
  destruct (lookup_lt_is_Some_2 (objects st) l) as [r Hr]; [apply Hvalid; left|].
  destruct (processRecord_logs i l st r Hr) as (entry & Hlogs & Hentry).
  cbn [processFrom].
  destruct (IH (S i) (processRecord w method options updatedResults i l st)) as [Hlen Hsucc].
  { done. }
  { intros l' Hl'. rewrite processRecord_objects, length_alter. apply Hvalid. by right. }
  rewrite Hlen, Hsucc, Hlogs. split.
  - rewrite length_app. cbn. lia.
  - rewrite (deref_cons_Some _ l rest (processed w method options i r)).
    2:{ by rewrite processFrom_lookup_other, processRecord_objects,
          list_lookup_alter_eq, Hr by done. }
    unfold entriesOf. rewrite filter_app, length_app, !filter_cons, filter_nil.
    rewrite (decide_False (P := info = success)) by done.
    destruct (decide (log_type entry = success)) as [Hyes|Hno].
    + rewrite decide_True by by apply Hentry. cbn [length]. lia.
    + rewrite decide_False by (intros Hs; by apply Hno, Hentry). cbn [length]. lia.
Qed.
End Log.

Lemma length_deref_valid (objs : list ProcessedFile) (refs : list nat) :
  (∀ l, l ∈ refs → l < length objs) → length (deref objs refs) = length refs.
Proof.
  induction refs as [|l refs IH]; intros Hvalid; [done|].
  unfold deref in *. cbn [omap list_omap].
  destruct (lookup_lt_is_Some_2 objs l) as [x Hx]; [apply Hvalid; left|].
  rewrite Hx. cbn. f_equal. apply IH. intros l' Hl'. apply Hvalid. by right.
Qed.

Lemma handleDownloadZip_logs_prefix (w : World) (captured : list nat) (st : AppState) :
  logs st `prefix_of` logs (handleDownloadZip w captured st).
Proof.
  unfold handleDownloadZip. case_decide; [by apply prefix_app_r|].
  destruct (generateAsync w _); cbn; rewrite <- app_assoc; by apply prefix_app_r.
Qed.

(** X11: the processor and the archive builder only ever append to the
    log: what was logged before a run is still there after it, in order, at
    the head of the log. *)
Theorem log_append_only (w : World) (previewOnly : bool) (captured : list nat)
    (st : AppState) :
  logs st `prefix_of` logs (processFiles w previewOnly st) ∧
  logs st `prefix_of` logs (handleDownloadZip w captured st).
Proof.
  split; [|apply handleDownloadZip_logs_prefix].
  unfold processFiles. case_decide; [by apply prefix_app_r|].
  assert (∀ message st0, logs st `prefix_of` logs st0 →
            logs st `prefix_of`
            logs (setIsProcessing false (addLog message info
                    (processFrom w (renameMethod st)
                       (mkOptions (customPattern st) (aiInstructions st))
                       (results st) 0 (results st) st0)))) as Hloop.
  { intros message st0 Hst0. cbn. apply prefix_app_r.
    etrans; [exact Hst0|apply processFrom_logs_prefix]. }
  destruct previewOnly.
  - apply Hloop. cbn. by apply prefix_app_r.
  - etrans; [|apply handleDownloadZip_logs_prefix].
    apply Hloop. cbn. by apply prefix_app_r.
Qed.

(** X12: a preview of a batch of n records appends 2n + 2 entries to the
    log (the start line, two lines per record, the completion line), and
    the entries of severity success it appends are as many as the records
    it leaves in Success. *)
Theorem processFiles_preview_log (w : World) (st : AppState) :
  reachable st → results st ≠ [] →
  length (logs (processFiles w true st))
  = length (logs st) + 2 * length (records st) + 2 ∧
  length (entriesOf success (logs (processFiles w true st)))
  = length (entriesOf success (logs st))
    + length (filter (λ r, status r = Success) (records (processFiles w true st))).
Proof.
  intros Hreach Hne. apply reachable_well_formed in Hreach as [Hnodup Hvalid].
  unfold records at 1. rewrite length_deref_valid by done.
  unfold records. rewrite processFiles_results.
  unfold processFiles. case_decide as Hlen; [by destruct (results st)|].
  cbn [logs objects setIsProcessing addLog setLogs].
  destruct (processFrom_logs_count w (renameMethod st)
              (mkOptions (customPattern st) (aiInstructions st)) (results st)
              (results st) 0
              (addLog "Starting rename PREVIEW..." info (setIsProcessing true st)))
    as [Hcount Hsucc]; [done..|].
  split.
  - rewrite length_app, Hcount. cbn. rewrite length_app. cbn. lia.
  - unfold entriesOf in *. rewrite filter_app, length_app, Hsucc. cbn.
    rewrite !filter_app, !length_app. cbn.
    rewrite !(decide_False (P := info = success)) by done. cbn [length]. lia.
Qed.

Lemma processFiles_preview_log_witness :
  let st := run [FilesSelected [scan_a; scan_b]] in
  let st' := processFiles world_flaky true st in
  reachable st ∧ results st ≠ [] ∧
  length (logs st') = length (logs st) + 2 * length (records st) + 2 ∧
  length (entriesOf success (logs st'))
  = length (entriesOf success (logs st))
    + length (filter (λ r, status r = Success) (records st')).
Proof.
  split; [apply reachable_run|]. split; [done|].
  apply (processFiles_preview_log world_flaky (run [FilesSelected [scan_a; scan_b]])).
  - apply reachable_run.
  - done.
Defined.

(** ** Names in the archive *)

Lemma ruleEntries_lookup (before files : list ProcessedFile) (i : nat) :
  ruleEntries before files !! i
  = (λ r, (ruleName (before ++ take i files) r, originalFile r)) <$> files !! i.
Proof.
  revert before i. induction files as [|r files IH]; intros before i; [done|].
  destruct i as [|i]; cbn.
  - by rewrite app_nil_r.
  - rewrite IH. by rewrite <- app_assoc.
Qed.

Lemma sample_named_pdf (r : ProcessedFile) :
  r ∈ sample_named → newName r = "A-17.pdf" ∨ newName r = "B-2.pdf".
Proof.
  intros Hr. apply list_elem_of_In in Hr. simpl in Hr.
  destruct Hr as [<-|[<-|[<-|[]]]]; auto.
Qed.

(** X13: for a list of records whose computed names all end in ".pdf" (as
    the processor makes them), the archive builder files the record at
    position [i], named n.pdf, under n.pdf when no earlier record of the
    list has that name, and otherwise under n_k.pdf, k being the number of
    earlier records with the same computed name; the payload is the
    record's file. *)
Theorem buildZip_entry (files : list ProcessedFile) (i : nat) (r : ProcessedFile)
    (n : string) :
  (∀ r', r' ∈ files → ∃ n', newName r' = n' +:+ ".pdf") →
  files !! i = Some r →
  newName r = n +:+ ".pdf" →
  buildZip files !! i
  = Some (match length (filter (λ r', newName r' = newName r) (take i files)) with
          | 0 => n +:+ ".pdf"
          | S _ as k => n +:+ "_" +:+ pretty k +:+ ".pdf"
          end,
          originalFile r).
Proof.
  intros _ Hi Hn. rewrite buildZip_rule, ruleEntries_lookup, Hi. cbn.
  unfold ruleName, occurrences.
  destruct (length (filter (λ r', newName r' = newName r) (take i files))) as [|k].
  - by rewrite Hn.
  - by rewrite Hn, replace_pdf_end_extension.
Qed.

Lemma buildZip_entry_witness :
  (∀ r', r' ∈ sample_named → ∃ n', newName r' = n' +:+ ".pdf") ∧
  sample_named !! 1 = Some {| id := "scan-b.pdf-1700000000500"; originalFile := scan_b;
                              originalName := "scan-b.pdf"; newName := "A-17.pdf";
                              status := Success; message := None |} ∧
  "A-17.pdf" = "A-17" +:+ ".pdf" ∧
  buildZip sample_named !! 1 = Some ("A-17_1.pdf", scan_b).
Proof.
  assert (∀ r', r' ∈ sample_named → ∃ n', newName r' = n' +:+ ".pdf") as Hpdf.
  { intros r Hr. destruct (sample_named_pdf r Hr) as [-> | ->];
      [by exists "A-17" | by exists "B-2"]. }
  split; [exact Hpdf|]. split; [done|]. split; [done|].
  apply (buildZip_entry sample_named 1
           {| id := "scan-b.pdf-1700000000500"; originalFile := scan_b;
              originalName := "scan-b.pdf"; newName := "A-17.pdf";
              status := Success; message := None |} "A-17").
  - exact Hpdf.
  - done.
  - done.
Defined.

(** *** Numerals and separators *)

Lemma split_at_last (c : ascii) (n1 n2 d1 d2 : string) :
  contains c d1 = false → contains c d2 = false →
  n1 +:+ String c d1 = n2 +:+ String c d2 → n1 = n2 ∧ d1 = d2.
Proof.
  intros Hd1 Hd2. revert n2.
  induction n1 as [|c1 n1 IH]; intros [|c2 n2] Heq;
    rewrite ?append_empty_l, ?append_String_l in Heq.
  - by injection Heq.
  - injection Heq as Hc Hd. subst d1 c2.
    rewrite contains_app in Hd1. simpl in Hd1.
    rewrite decide_True in Hd1 by done. by rewrite orb_true_r in Hd1.
  - injection Heq as Hc Hd. subst d2 c1.
    rewrite contains_app in Hd2. simpl in Hd2.
    rewrite decide_True in Hd2 by done. by rewrite orb_true_r in Hd2.
  - injection Heq as <- Heq. destruct (IH n2 Heq) as [-> ->]. done.
Qed.

Lemma pretty_N_go_no_underscore (x : N) (s : string) :
  contains "_" s = false → contains "_" (pretty_N_go x s) = false.
Proof.
  revert s. induction (N.lt_wf_0 x) as [x _ IH]; intros s Hs.
  destruct (decide (x = 0)%N) as [->|Hx].
  - by rewrite pretty_N_go_0.
  - rewrite pretty_N_go_step by lia.
    apply IH; [apply N.div_lt; lia|].
    cbn. case_decide as Hc; [|done].
    unfold pretty_N_char in Hc. by repeat case_match.
Qed.

Lemma pretty_N_go_no_dot (x : N) (s : string) :
  contains "." s = false → contains "." (pretty_N_go x s) = false.
Proof.
  revert s. induction (N.lt_wf_0 x) as [x _ IH]; intros s Hs.
  destruct (decide (x = 0)%N) as [->|Hx].
  - by rewrite pretty_N_go_0.
  - rewrite pretty_N_go_step by lia.
    apply IH; [apply N.div_lt; lia|].
    cbn. case_decide as Hc; [|done].
    unfold pretty_N_char in Hc. by repeat case_match.
Qed.

Lemma pretty_nat_separators (k : nat) :
  contains "_" (pretty k) = false ∧ contains "." (pretty k) = false.
Proof.
  unfold pretty, pretty_nat, pretty, pretty_N.
  case_decide; [done|].
  split; [by apply pretty_N_go_no_underscore | by apply pretty_N_go_no_dot].
Qed.

(** A suffixed name tells its stem and its number. *)
Lemma suffix_inj (stem1 stem2 : string) (k1 k2 : nat) :
  stem1 +:+ "_" +:+ pretty k1 +:+ ".pdf" = stem2 +:+ "_" +:+ pretty k2 +:+ ".pdf" →
  stem1 = stem2 ∧ k1 = k2.
Proof.
  intros Heq.
  destruct (pretty_nat_separators k1) as [Hu1 Hd1].
  destruct (pretty_nat_separators k2) as [Hu2 Hd2].
  change (stem1 +:+ String "_" (pretty k1 +:+ ".pdf")
          = stem2 +:+ String "_" (pretty k2 +:+ ".pdf")) in Heq.
  apply split_at_last in Heq as [-> Heq].
  2,3: rewrite contains_app; (rewrite Hu1 || rewrite Hu2); done.
  split; [done|].
  change (pretty k1 +:+ String "." "pdf" = pretty k2 +:+ String "." "pdf") in Heq.
  apply split_at_last in Heq as [Heq _]; [|done..].
  by apply (inj pretty) in Heq.
Qed.

(** *** Distinct names *)

Lemma ruleEntries_names (before files : list ProcessedFile) :
  (ruleEntries before files).*1 = keyName <$> nameKeys before files.
Proof.
  revert before. induction files as [|r files IH]; intros before; [done|].
  cbn. by rewrite IH.
Qed.

Lemma occurrences_snoc_le (n : string) (before : list ProcessedFile) (r : ProcessedFile) :
  occurrences n before ≤ occurrences n (before ++ [r]).
Proof. rewrite occurrences_snoc. lia. Qed.

Lemma nameKeys_bound (before files : list ProcessedFile) (n : string) (c : nat) :
  (n, c) ∈ nameKeys before files → occurrences n before ≤ c.
Proof.
  revert before. induction files as [|r files IH]; intros before Hin.
  - by apply elem_of_nil in Hin.
  - cbn in Hin. apply elem_of_cons in Hin as [Heq|Hin].
    + by injection Heq as -> ->.
    + etrans; [apply occurrences_snoc_le|by apply IH].
Qed.

Lemma nameKeys_NoDup (before files : list ProcessedFile) : NoDup (nameKeys before files).
Proof.
  revert before. induction files as [|r files IH]; intros before; [constructor|].
  cbn. constructor; [|apply IH].
  intros Hin. apply nameKeys_bound in Hin.
  rewrite occurrences_snoc, decide_True in Hin by done. lia.
Qed.

Lemma nameKeys_name (before files : list ProcessedFile) (n : string) (c : nat) :
  (n, c) ∈ nameKeys before files → ∃ r, r ∈ files ∧ newName r = n.
Proof.
  revert before. induction files as [|r files IH]; intros before Hin.
  - by apply elem_of_nil in Hin.
  - cbn in Hin. apply elem_of_cons in Hin as [Heq|Hin].
    + injection Heq as -> _. exists r. split; [left|done].
    + destruct (IH _ Hin) as (r' & Hr' & Hn). exists r'. split; [by right|done].
Qed.

(** X14: when every computed name of the list ends in ".pdf" and none of
    them is another one's name with "_k" before the extension, the archive
    builder files the records under pairwise distinct names. *)
Theorem buildZip_names_distinct (files : list ProcessedFile) :
  (∀ r, r ∈ files → ∃ n, newName r = n +:+ ".pdf") →
  (∀ r r' n k, r ∈ files → r' ∈ files → newName r = n +:+ ".pdf" →
               newName r' ≠ n +:+ "_" +:+ pretty (S k) +:+ ".pdf") →
  NoDup (buildZip files).*1.
Proof.
  intros Hpdf Hfree.
  rewrite buildZip_rule, ruleEntries_names.
  apply NoDup_fmap_2_strong; [|apply nameKeys_NoDup].
  intros [n1 c1] [n2 c2] Hk1 Hk2 Heq.
  destruct (nameKeys_name _ _ _ _ Hk1) as (r1 & Hr1 & Hn1).
  destruct (nameKeys_name _ _ _ _ Hk2) as (r2 & Hr2 & Hn2).
  destruct (Hpdf r1 Hr1) as [a1 Ha1]. destruct (Hpdf r2 Hr2) as [a2 Ha2].
  rewrite Hn1 in Ha1. rewrite Hn2 in Ha2.
  unfold keyName, suffixed in Heq. cbn [fst snd] in Heq.
  destruct c1 as [|c1], c2 as [|c2].
  - by subst.
  - exfalso. apply (Hfree r2 r1 a2 c2 Hr2 Hr1); [congruence|].
    rewrite Hn1, Heq, Ha2. by rewrite replace_pdf_end_extension.
  - exfalso. apply (Hfree r1 r2 a1 c1 Hr1 Hr2); [congruence|].
    rewrite Hn2, <- Heq, Ha1. by rewrite replace_pdf_end_extension.
  - rewrite Ha1, Ha2, !replace_pdf_end_extension in Heq.
    apply suffix_inj in Heq as [-> Hc]. by rewrite Ha1, Ha2, Hc.
Qed.

Lemma buildZip_names_distinct_witness :
  (∀ r, r ∈ sample_named → ∃ n, newName r = n +:+ ".pdf") ∧
  (∀ r r' n k, r ∈ sample_named → r' ∈ sample_named → newName r = n +:+ ".pdf" →
               newName r' ≠ n +:+ "_" +:+ pretty (S k) +:+ ".pdf") ∧
  NoDup (buildZip sample_named).*1.
Proof.
  assert (∀ r, r ∈ sample_named → ∃ n, newName r = n +:+ ".pdf") as Hpdf.
  { intros r Hr. destruct (sample_named_pdf r Hr) as [-> | ->];
      [by exists "A-17" | by exists "B-2"]. }
  assert (∀ r r' n k, r ∈ sample_named → r' ∈ sample_named → newName r = n +:+ ".pdf" →
                      newName r' ≠ n +:+ "_" +:+ pretty (S k) +:+ ".pdf") as Hfree.
  { intros r r' n k Hr Hr' Hn Hclash.
    apply (f_equal replace_pdf_end) in Hn. rewrite replace_pdf_end_extension in Hn.
    subst n.
    destruct (sample_named_pdf r Hr) as [Hr1|Hr1],
             (sample_named_pdf r' Hr') as [Hr2|Hr2];
      rewrite Hr1, Hr2 in Hclash; cbn [replace_pdf_end] in Hclash;
      repeat (rewrite decide_False in Hclash by done);
      rewrite ?append_String_l, ?append_empty_l in Hclash; discriminate. }
  split; [exact Hpdf|]. split; [exact Hfree|].
  apply (buildZip_names_distinct sample_named); [exact Hpdf | exact Hfree].
Defined.

(** X15: [replace(/\.pdf$/, '')] undoes the processor's appending of
    ".pdf", and leaves alone every string that does not end in ".pdf". *)
Theorem replace_pdf_end_spec (s : string) :
  replace_pdf_end (s +:+ ".pdf") = s ∧
  ((∀ n, s ≠ n +:+ ".pdf") → replace_pdf_end s = s).
Proof.
  split; [apply replace_pdf_end_extension|].
  induction s as [|c s IH]; intros Hend; [done|].
  cbn [replace_pdf_end]. case_decide as Heq.
  - by destruct (Hend "").
  - f_equal. apply IH. intros n ->. by apply (Hend (String c n)).
Qed.

Lemma replace_pdf_end_spec_witness :
  replace_pdf_end ("INV-7_1" +:+ ".pdf") = "INV-7_1" ∧
  (∀ n, "report.pdf.txt" ≠ n +:+ ".pdf") ∧
  replace_pdf_end "report.pdf.txt" = "report.pdf.txt".
Proof.
  assert (∀ n, "report.pdf.txt" ≠ n +:+ ".pdf") as Hend.
  { intros n Hn. pose proof (f_equal replace_pdf_end Hn) as Hstem.
    rewrite replace_pdf_end_extension in Hstem. by subst n. }
  split; [exact (proj1 (replace_pdf_end_spec "INV-7_1"))|].
  split; [exact Hend|].
  exact (proj2 (replace_pdf_end_spec "report.pdf.txt") Hend).
Defined.
